(** * uioctl: userspace I/O register access and interrupt monitor

    A shallow embedding of [uioctl.c] and the properties of its
    register-access core and interrupt-monitor loop.

    The program is embedded as functions in a small state-and-exit monad.
    The state carries the device's register image and the chronological
    trace of system calls and messages; the results of the system calls
    come from a [world] oracle.  C [int]s are integers wrapped to 32 bits,
    bytes are [Byte.byte]. *)

From Stdlib Require Import ZArith List Lia Bool String Sorted.
From Stdlib Require Import Strings.Byte.
Import ListNotations.

Local Open Scope string_scope.
Local Open Scope list_scope.
Local Open Scope Z_scope.

(** ** Machine integers *)

Module Int.

Definition modulus : Z := 4294967296.
Definition half_modulus : Z := 2147483648.
Definition max_signed : Z := 2147483647.
Definition min_signed : Z := -2147483648.

(** Conversion of an integer to [int]: reduction modulo 2^32 into the
    signed range (what gcc does for out-of-range conversions, and what
    the hardware does on signed overflow). *)
Definition wrap (z : Z) : Z := (z + half_modulus) mod modulus - half_modulus.

(** Conversion of an [int] to [unsigned]. *)
Definition unsigned (z : Z) : Z := z mod modulus.

Definition add (a b : Z) : Z := wrap (a + b).
Definition mul (a b : Z) : Z := wrap (a * b).

Definition in_range (z : Z) : Prop := min_signed <= z <= max_signed.

End Int.

(** ** Bytes and 4-byte buffers *)

Definition byte_val (b : byte) : Z := Z.of_N (Byte.to_N b).

Definition byte_of_Z (z : Z) : byte :=
  match Byte.of_N (Z.to_N (z mod 256)) with
  | Some b => b
  | None => x00
  end.

(** [char buf[4]] *)
Record buf4 : Type := Buf4 { b0 : byte; b1 : byte; b2 : byte; b3 : byte }.

(** The value of four bytes read as an unsigned little-endian integer. *)
Definition le_u32 (b : buf4) : Z :=
  byte_val (b0 b) + 256 * byte_val (b1 b) + 65536 * byte_val (b2 b)
  + 16777216 * byte_val (b3 b).

(** The value of four bytes read as an unsigned big-endian integer. *)
Definition be_u32 (b : buf4) : Z :=
  byte_val (b3 b) + 256 * byte_val (b2 b) + 65536 * byte_val (b1 b)
  + 16777216 * byte_val (b0 b).

(** What the compiler and the host leave open: whether plain [char] is
    signed, and the byte order of a word in memory. *)
Record platform : Type := Platform { char_signed : bool; big_endian : bool }.

(** ** The register image behind the mapping *)

Definition memory : Type := Z -> byte.

Definition mem_set (m : memory) (o : Z) (b : byte) : memory :=
  fun x => if x =? o then b else m x.

Definition bytes_at (m : memory) (off : Z) : buf4 :=
  Buf4 (m off) (m (off + 1)) (m (off + 2)) (m (off + 3)).

(** The unsigned word at [off], in the host's byte order. *)
Definition word_at (pf : platform) (m : memory) (off : Z) : Z :=
  if big_endian pf then be_u32 (bytes_at m off) else le_u32 (bytes_at m off).

(** The four bytes of the unsigned word [v] in little-endian order. *)
Definition le_bytes (v : Z) : buf4 :=
  Buf4 (byte_of_Z v) (byte_of_Z (v / 256)) (byte_of_Z (v / 65536))
       (byte_of_Z (v / 16777216)).

Definition put_bytes (m : memory) (off : Z) (b : buf4) : memory :=
  mem_set (mem_set (mem_set (mem_set m off (b0 b)) (off + 1) (b1 b))
                   (off + 2) (b2 b)) (off + 3) (b3 b).

(** Storing the unsigned word [v] at [off], in the host's byte order. *)
Definition put_word (pf : platform) (m : memory) (off : Z) (v : Z) : memory :=
  let b := le_bytes v in
  if big_endian pf
  then put_bytes m off (Buf4 (b3 b) (b2 b) (b1 b) (b0 b))
  else put_bytes m off b.

(** ** Observable actions *)

Inductive mode_type : Type := MODE_READ | MODE_WRITE | MODE_LIST | MODE_MONITOR.

Definition mode_eqb (a b : mode_type) : bool :=
  match a, b with
  | MODE_READ, MODE_READ | MODE_WRITE, MODE_WRITE
  | MODE_LIST, MODE_LIST | MODE_MONITOR, MODE_MONITOR => true
  | _, _ => false
  end.

Definition DEFAULT_WIDTH : Z := 4.
Definition EXIT_SUCCESS : Z := 0.
Definition EXIT_FAILURE : Z := 1.
Definition ERANGE : Z := 34.

Inductive stream : Type := Stdout | Stderr.

(** The texts the program prints, with the arguments of their formats. *)
Inductive message : Type :=
| MsgUsage                                   (* "Usage: %s [options] ..." *)
| MsgListing                                 (* "listing not yet implemented" *)
| MsgWaiting (fpath : string)                (* "Waiting for interrupts on %s" *)
| MsgCouldntOpen (fpath : string)            (* "Couldn't open UIO device file: %s" *)
| MsgClearing                                (* "Problem clearing device file" *)
| MsgReading                                 (* "Problem reading from device file" *)
| MsgInterrupt (time millitm : Z) (n : Z)    (* "[%ld.%03d] interrupt: %d" *)
| MsgRegion                                  (* "region != 0 not yet implemented" *)
| MsgWidth                                   (* "width != 4 not yet implemented" *)
| MsgUnexpected                              (* "Unexpected argument; try -h" *)
| MsgWrongArgs                               (* "Wrong number of arguments; try -h" *)
| MsgCouldntMmap                             (* "Couldn't mmap." *)
| MsgWord (addr value : Z).                  (* "0x%08x\t%08x", both as unsigned *)

Inductive event : Type :=
| EvPrint (f : stream) (m : message)
| EvPerror (tag : string)
| EvOpen (fpath : string) (fd : Z)
| EvMmap (length : Z) (fd : Z) (ok : bool)
| EvMunmap (length : Z)
| EvClose (fd : Z)
| EvPwrite (fd : Z) (data : buf4) (n off : Z) (ret : Z)
| EvPread (fd : Z) (n off : Z) (ret : Z) (data : buf4)
| EvFtime (time millitm : Z)
| EvLoad (off : Z) (v : Z)
| EvStore (off : Z) (v : Z)
| EvOutside (off : Z).

(** [EvLoad] and [EvStore] are the accesses through the mapped pointer
    that lie within the mapped length; [EvOutside] is an access that does
    not, after which the model does not follow the run.

    How a run ends: [exit] or a return from [main]; an access outside the
    mapping; or still inside the monitor loop when the
    iteration budget of the model is used up. *)
Inductive outcome : Type :=
| Exited (status : Z)
| Faulted
| Running.

(** ** The environment *)

(** The results of the system calls.  The calls of the monitor loop are
    indexed by the iteration that issues them. *)
Record world : Type := World {
  open_result : Z;                      (* descriptor, or -1 *)
  mmap_succeeds : bool;                 (* false: MAP_FAILED *)
  pwrite_result : nat -> Z;             (* bytes written, or -1 *)
  pread_result : nat -> Z * buf4;       (* bytes read or -1, and the buffer *)
  ftime_result : nat -> Z * Z           (* seconds, milliseconds *)
}.

(** ** The state-and-exit monad *)

Record state : Type := State {
  st_mem : memory;
  st_trace : list event;
  st_errno : Z
}.

Inductive res (A : Type) : Type :=
| Ret (a : A)
| Stop (o : outcome).
Arguments Ret {A} a.
Arguments Stop {A} o.

Definition M (A : Type) : Type := state -> res A * state.

Definition ret {A} (a : A) : M A := fun s => (Ret a, s).

Definition bind {A B} (m : M A) (k : A -> M B) : M B :=
  fun s => match m s with
           | (Ret a, s') => k a s'
           | (Stop o, s') => (Stop o, s')
           end.

Declare Scope prog_scope.
Delimit Scope prog_scope with prog.
Notation "x <- m ;; k" := (bind m (fun x => k))
  (at level 61, m at next level, right associativity) : prog_scope.
Notation "m ;; k" := (bind m (fun _ => k))
  (at level 61, right associativity) : prog_scope.
Local Open Scope prog_scope.

Definition stop {A} (o : outcome) : M A := fun s => (Stop o, s).

(** [exit(status)] does not return. *)
Definition exit {A} (status : Z) : M A := stop (Exited status).

Definition emit (e : event) : M unit :=
  fun s => (Ret tt, State (st_mem s) (st_trace s ++ [e]) (st_errno s)).

Definition print (f : stream) (m : message) : M unit := emit (EvPrint f m).
Definition perror (tag : string) : M unit := emit (EvPerror tag).

Definition get_errno : M Z := fun s => (Ret (st_errno s), s).
Definition set_errno (e : Z) : M unit :=
  fun s => (Ret tt, State (st_mem s) (st_trace s) e).

(** A command-line word together with what [strtoul(word, NULL, 0)] makes
    of it: the [unsigned long] it returns and the [errno] it sets (0 when
    it leaves [errno] alone). *)
Record word : Type := Word { w_text : string; w_ulong : Z; w_errno : Z }.

Definition strtoul (a : word) : M Z :=
  fun s => (Ret (w_ulong a),
            if w_errno a =? 0 then s
            else State (st_mem s) (st_trace s) (w_errno a)).

(** A live mapping: the pointer [mmap] returned, known by the length that
    was asked for. *)
Record mapping : Type := Mapping { map_length : Z }.

Definition within (p : mapping) (off : Z) : Prop :=
  0 <= off /\ off + 4 <= map_length p.

Definition withinb (p : mapping) (off : Z) : bool :=
  (0 <=? off) && (off + 4 <=? map_length p).

Section Program.

Variable pf : platform.
Variable w : world.

Definition sys_open (fpath : string) : M Z :=
  emit (EvOpen fpath (open_result w)) ;; ret (open_result w).

(** [mmap(NULL, length, PROT_READ|PROT_WRITE, MAP_SHARED, fd, 0)];
    [None] is [MAP_FAILED].  [length] is the [int] the program passes; a
    negative one converts to a [size_t] no mapping can have, and the
    model lets no offset lie within it. *)
Definition sys_mmap (length fd : Z) : M (option mapping) :=
  emit (EvMmap length fd (mmap_succeeds w)) ;;
  ret (if mmap_succeeds w then Some (Mapping length) else None).

Definition sys_munmap (p : mapping) (length : Z) : M unit :=
  emit (EvMunmap length).

Definition sys_close (fd : Z) : M unit := emit (EvClose fd).

Definition sys_pwrite (i : nat) (fd : Z) (data : buf4) (n off : Z) : M Z :=
  emit (EvPwrite fd data n off (pwrite_result w i)) ;;
  ret (pwrite_result w i).

Definition sys_pread (i : nat) (fd : Z) (n off : Z) : M (Z * buf4) :=
  emit (EvPread fd n off (fst (pread_result w i)) (snd (pread_result w i))) ;;
  ret (pread_result w i).

Definition sys_ftime (i : nat) : M (Z * Z) :=
  emit (EvFtime (fst (ftime_result w i)) (snd (ftime_result w i))) ;;
  ret (ftime_result w i).

(** Reading the [unsigned] that [ptr + addr] points to.  The model asks
    for the four bytes to lie within the mapped length, not for an aligned
    offset. *)
Definition load (p : mapping) (off : Z) : M Z :=
  fun s =>
    if withinb p off
    then let v := word_at pf (st_mem s) off in
         (Ret v, State (st_mem s) (st_trace s ++ [EvLoad off v]) (st_errno s))
    else (Stop Faulted,
          State (st_mem s) (st_trace s ++ [EvOutside off]) (st_errno s)).

(** Assigning [v] to the [unsigned] that [ptr + addr] points to. *)
Definition store (p : mapping) (off : Z) (v : Z) : M unit :=
  fun s =>
    if withinb p off
    then (Ret tt, State (put_word pf (st_mem s) off v)
                        (st_trace s ++ [EvStore off v]) (st_errno s))
    else (Stop Faulted,
          State (st_mem s) (st_trace s ++ [EvOutside off]) (st_errno s)).

(** *** [usage] and [list_devices] *)

Definition usage {A} (exit_status : Z) : M A :=
  print (if exit_status =? EXIT_SUCCESS then Stdout else Stderr) MsgUsage ;;
  exit exit_status.

Definition list_devices {A} : M A :=
  print Stderr MsgListing ;;
  exit EXIT_FAILURE.

(** *** [monitor] *)

(** [char startval[] = {0,0,0,1};] *)
Definition startval : buf4 := Buf4 x00 x00 x00 x01.

(** A [char] promoted to [int]. *)
Definition char_to_int (b : byte) : Z :=
  if char_signed pf && (128 <=? byte_val b)
  then byte_val b - 256
  else byte_val b.

(** [buf[3] * 16777216 + buf[2] * 65536 + buf[1] * 256 + buf[0]], in
    [int] arithmetic. *)
Definition interrupt_count (buf : buf4) : Z :=
  Int.add (Int.add (Int.add (Int.mul (char_to_int (b3 buf)) 16777216)
                            (Int.mul (char_to_int (b2 buf)) 65536))
                   (Int.mul (char_to_int (b1 buf)) 256))
          (char_to_int (b0 buf)).

(** The [do ... while (forever)] loop.  [i] counts the iterations done
    so far; [fuel] bounds the iterations the model follows, and a run
    that needs more is reported as [Running]. *)
Fixpoint monitor_loop (fuel : nat) (i : nat) (fd forever : Z) : M unit :=
  match fuel with
  | O => stop Running
  | S fuel' =>
      bytes <- sys_pwrite i fd startval 4 0 ;;
      (if negb (bytes =? 4)
       then perror "uioctl" ;; print Stderr MsgClearing ;; exit EXIT_FAILURE
       else ret tt) ;;
      r <- sys_pread i fd 4 0 ;;
      tp <- sys_ftime i ;;
      (if negb (fst r =? 4)
       then perror "uioctl" ;; print Stderr MsgReading ;; exit EXIT_FAILURE
       else ret tt) ;;
      print Stdout (MsgInterrupt (fst tp) (snd tp) (interrupt_count (snd r))) ;;
      if negb (forever =? 0)
      then monitor_loop fuel' (S i) fd forever
      else ret tt
  end.

Definition monitor {A} (fuel : nat) (fpath : string) (forever : Z) : M A :=
  print Stdout (MsgWaiting fpath) ;;
  fd <- sys_open fpath ;;
  (if fd <? 1
   then perror "uioctl" ;; print Stderr (MsgCouldntOpen fpath) ;;
        exit EXIT_FAILURE
   else ret tt) ;;
  monitor_loop fuel 0 fd forever ;;
  sys_close fd ;;
  exit EXIT_SUCCESS.

(** *** [main] *)

(** What successive calls of [getopt(argc, argv, "hlmxr:n:w:")] return:
    an option letter, with its argument for [r], [n] and [w]; [OptOther]
    is ['?'], an unknown letter or a missing argument. *)
Inductive opt : Type :=
| OptH | OptL | OptM | OptX
| OptR (optarg : word)
| OptN (optarg : word)
| OptW (optarg : word)
| OptOther.

(** The local variables of [main] that outlive the option loop. *)
Record locals : Type := Locals {
  mode : mode_type;
  fpath : string;
  value : Z;
  addr : Z;
  region : Z;
  count : Z;
  width : Z;
  forever : Z
}.

(** [fpath], [value] and [addr] start uninitialised; every path that
    reads one of them has assigned it before. *)
Definition init_locals : locals :=
  Locals MODE_READ EmptyString 0 0 0 1 DEFAULT_WIDTH 1.

Definition set_mode (l : locals) (m : mode_type) : locals :=
  Locals m (fpath l) (value l) (addr l) (region l) (count l) (width l) (forever l).
Definition set_fpath (l : locals) (p : string) : locals :=
  Locals (mode l) p (value l) (addr l) (region l) (count l) (width l) (forever l).
Definition set_value (l : locals) (v : Z) : locals :=
  Locals (mode l) (fpath l) v (addr l) (region l) (count l) (width l) (forever l).
Definition set_addr (l : locals) (a : Z) : locals :=
  Locals (mode l) (fpath l) (value l) a (region l) (count l) (width l) (forever l).
Definition set_region (l : locals) (r : Z) : locals :=
  Locals (mode l) (fpath l) (value l) (addr l) r (count l) (width l) (forever l).
Definition set_count (l : locals) (n : Z) : locals :=
  Locals (mode l) (fpath l) (value l) (addr l) (region l) n (width l) (forever l).
Definition set_width (l : locals) (n : Z) : locals :=
  Locals (mode l) (fpath l) (value l) (addr l) (region l) (count l) n (forever l).
Definition set_forever (l : locals) (f : Z) : locals :=
  Locals (mode l) (fpath l) (value l) (addr l) (region l) (count l) (width l) f.

(** [if (errno) { perror("uioctl"); exit(EXIT_FAILURE); }] *)
Definition check_errno : M unit :=
  e <- get_errno ;;
  if negb (e =? 0) then perror "uioctl" ;; exit EXIT_FAILURE else ret tt.

(** One turn of the option loop: [errno = 0; switch (c) ...].  The cases
    ['h'] and ['l'] have no [break]; they fall through, were the calls to
    return. *)
Definition handle_option (c : opt) (l : locals) : M locals :=
  set_errno 0 ;;
  match c with
  | OptH =>
      usage (A := unit) EXIT_SUCCESS ;;
      list_devices (A := unit) ;;
      ret (set_mode l MODE_MONITOR)
  | OptL =>
      list_devices (A := unit) ;;
      ret (set_mode l MODE_MONITOR)
  | OptM => ret (set_mode l MODE_MONITOR)
  | OptX => ret (set_forever (set_mode l MODE_MONITOR) 0)
  | OptR optarg =>
      r <- strtoul optarg ;;
      let l := set_region l (Int.wrap r) in
      check_errno ;;
      (if negb (region l =? 0)
       then print Stderr MsgRegion ;; exit EXIT_FAILURE
       else ret tt) ;;
      ret l
  | OptN optarg =>
      n <- strtoul optarg ;;
      let l := set_count l (Int.wrap n) in
      check_errno ;;
      ret l
  | OptW optarg =>
      n <- strtoul optarg ;;
      let l := set_width l (Int.wrap n) in
      check_errno ;;
      (if negb (width l =? 4)
       then print Stderr MsgWidth ;; exit EXIT_FAILURE
       else ret tt) ;;
      ret l
  | OptOther => print Stderr MsgUnexpected ;; exit EXIT_FAILURE
  end.

(** [while ((c = getopt(...)) != -1) ...] *)
Fixpoint option_loop (opts : list opt) (l : locals) : M locals :=
  match opts with
  | [] => ret l
  | c :: rest => l' <- handle_option c l ;; option_loop rest l'
  end.

(** The positional arguments [argv[optind ..]]: [argc - optind] is their
    number. *)
Definition positional (fuel : nat) (args : list word) (l : locals) : M locals :=
  l <- (if mode_eqb (mode l) MODE_MONITOR
        then match args with
             | [a0] =>
                 let l := set_fpath l (w_text a0) in
                 monitor (A := unit) fuel (fpath l) (forever l) ;;
                 ret l
             | _ => print Stderr MsgWrongArgs ;; exit EXIT_FAILURE
             end
        else ret l) ;;
  if mode_eqb (mode l) MODE_READ
  then match args with
       | [a0; a1] =>
           let l := set_fpath l (w_text a0) in
           set_errno 0 ;;
           a <- strtoul a1 ;;
           let l := set_addr l (Int.wrap a) in
           check_errno ;;
           ret l
       | [a0; a1; a2] =>
           let l := set_mode l MODE_WRITE in
           let l := set_fpath l (w_text a0) in
           set_errno 0 ;;
           a <- strtoul a1 ;;
           let l := set_addr l (Int.wrap a) in
           v <- strtoul a2 ;;
           let l := set_value l (Int.wrap v) in
           check_errno ;;
           ret l
       | _ => print Stderr MsgWrongArgs ;; exit EXIT_FAILURE
       end
  else ret l.

(** [for (; count > 0; count--) ...]: the body runs [Z.to_nat count]
    times, the number [n] of turns left. *)
Fixpoint read_loop (n : nat) (ptr : mapping) (width addr : Z) : M unit :=
  match n with
  | O => ret tt
  | S n' =>
      v <- load ptr addr ;;
      let value := Int.wrap v in
      print Stdout (MsgWord (Int.unsigned addr) (Int.unsigned value)) ;;
      read_loop n' ptr width (Int.add addr width)
  end.

(** The rest of [main], from [map_size = count * width] on.  The value
    returned is the one [main] returns. *)
Definition access (l : locals) : M Z :=
  let map_size := Int.mul (count l) (width l) in
  fd <- sys_open (fpath l) ;;
  if fd <? 1
  then perror "uioctl" ;; print Stderr (MsgCouldntOpen (fpath l)) ;;
       ret EXIT_FAILURE
  else
    ptr <- sys_mmap (Int.add map_size (addr l)) fd ;;
    match ptr with
    | None => perror "mmap" ;; print Stderr MsgCouldntMmap ;; ret EXIT_FAILURE
    | Some ptr =>
        (if mode_eqb (mode l) MODE_READ
         then read_loop (Z.to_nat (count l)) ptr (width l) (addr l)
         else store ptr (addr l) (Int.unsigned (value l))) ;;
        sys_munmap ptr map_size ;;
        sys_close fd ;;
        ret EXIT_SUCCESS
    end.

Definition main (fuel : nat) (opts : list opt) (args : list word) : M Z :=
  l <- option_loop opts init_locals ;;
  l <- positional fuel args l ;;
  access l.

(** Running a program from a register image, with an empty trace. *)
Definition run (p : M Z) (m : memory) : outcome * state :=
  match p (State m [] 0) with
  | (Ret status, s) => (Exited status, s)
  | (Stop o, s) => (o, s)
  end.

End Program.

(** ** Reading a run *)

Definition outcome_of (r : outcome * state) : outcome := fst r.
Definition trace_of (r : outcome * state) : list event := st_trace (snd r).
Definition memory_of (r : outcome * state) : memory := st_mem (snd r).

(** The state [s] after the events [evs]. *)
Definition after (s : state) (evs : list event) : state :=
  State (st_mem s) (st_trace s ++ evs) (st_errno s).

(** The events of turn [i] of the monitor loop. *)
Definition ack_event (w : world) (fd : Z) (i : nat) : event :=
  EvPwrite fd startval 4 0 (pwrite_result w i).

Definition wait_event (w : world) (fd : Z) (i : nat) : event :=
  EvPread fd 4 0 (fst (pread_result w i)) (snd (pread_result w i)).

Definition stamp_event (w : world) (i : nat) : event :=
  EvFtime (fst (ftime_result w i)) (snd (ftime_result w i)).

Definition report_event (pf : platform) (w : world) (i : nat) : event :=
  EvPrint Stdout
    (MsgInterrupt (fst (ftime_result w i)) (snd (ftime_result w i))
                  (interrupt_count pf (snd (pread_result w i)))).

(** A whole turn: acknowledge, wait, time stamp, report. *)
Definition iteration (pf : platform) (w : world) (fd : Z) (i : nat) : list event :=
  [ack_event w fd i; wait_event w fd i; stamp_event w i; report_event pf w i].

(** Both transfers of turn [i] move all 4 bytes. *)
Definition full_transfer (w : world) (i : nat) : Prop :=
  pwrite_result w i = 4 /\ fst (pread_result w i) = 4.

(** How the loop leaves off after [n] whole turns that began at turn [i]:
    the result and the events after those turns. *)
Inductive loop_end (w : world) (fd forever : Z) (fuel i n : nat) :
  res unit -> list event -> Prop :=
| end_budget :
    n = fuel -> forever <> 0 \/ fuel = 0%nat ->
    loop_end w fd forever fuel i n (Stop Running) []
| end_single :
    forever = 0 -> n = 1%nat ->
    loop_end w fd forever fuel i n (Ret tt) []
| end_short_ack :
    (n < fuel)%nat ->
    pwrite_result w (i + n) <> 4 ->
    loop_end w fd forever fuel i n (Stop (Exited EXIT_FAILURE))
      [ack_event w fd (i + n); EvPerror "uioctl"; EvPrint Stderr MsgClearing]
| end_short_wait :
    (n < fuel)%nat ->
    pwrite_result w (i + n) = 4 -> fst (pread_result w (i + n)) <> 4 ->
    loop_end w fd forever fuel i n (Stop (Exited EXIT_FAILURE))
      [ack_event w fd (i + n); wait_event w fd (i + n); stamp_event w (i + n);
       EvPerror "uioctl"; EvPrint Stderr MsgReading].

(** What [monitor] prints and opens before the loop. *)
Definition monitor_header (w : world) (fpath : string) : list event :=
  [EvPrint Stdout (MsgWaiting fpath); EvOpen fpath (open_result w)].

(** What [monitor] does after the loop, by the loop's result: when the
    loop comes to its end, [close] and [exit(EXIT_SUCCESS)]. *)
Definition monitor_finish (w : world) (r : res unit) : outcome * list event :=
  match r with
  | Ret _ => (Exited EXIT_SUCCESS, [EvClose (open_result w)])
  | Stop o => (o, [])
  end.

(** Every wait read in the trace comes right after an acknowledging write
    of [startval] to the same descriptor that moved all 4 bytes. *)
Definition ack_before_wait (tr : list event) : Prop :=
  forall pre post fd n off r d,
    tr = pre ++ EvPread fd n off r d :: post ->
    exists pre', pre = pre' ++ [EvPwrite fd startval 4 0 4].

(** The same, event by event: [prev] is the event before [tr]. *)
Fixpoint waits_acked (prev : option event) (tr : list event) : Prop :=
  match tr with
  | [] => True
  | e :: tr' =>
      match e with
      | EvPread fd _ _ _ _ => prev = Some (EvPwrite fd startval 4 0 4)
      | _ => True
      end /\ waits_acked (Some e) tr'
  end.

Definition last_event (prev : option event) (tr : list event) : option event :=
  fold_left (fun _ e => Some e) tr prev.

(** The length [main] asks [mmap] for: [map_size + addr]. *)
Definition map_length_of (l : locals) : Z :=
  Int.add (Int.mul (count l) (width l)) (addr l).

(** The [(address, value)] rows a run prints on standard output. *)
Definition words_printed (tr : list event) : list (Z * Z) :=
  flat_map (fun e => match e with
                     | EvPrint Stdout (MsgWord a v) => [(a, v)]
                     | _ => []
                     end) tr.

(** The [(offset, value)] words a run stores through the mapping. *)
Definition words_stored (tr : list event) : list (Z * Z) :=
  flat_map (fun e => match e with
                     | EvStore o v => [(o, v)]
                     | _ => []
                     end) tr.

(** The offset an event accesses through the mapped pointer. *)
Definition accessed (e : event) : option Z :=
  match e with
  | EvLoad off _ | EvStore off _ | EvOutside off => Some off
  | _ => None
  end.

(** The events of one turn of the read loop at address [a]. *)
Definition read_turn (pf : platform) (m : memory) (a : Z) : list event :=
  [EvLoad a (word_at pf m a); EvPrint Stdout (MsgWord a (word_at pf m a))].

(** An option that asks for what the program does not implement: a
    region other than 0 or a word width other than 4, as stored in the
    [int] variable. *)
Definition unsupported (c : opt) : Prop :=
  match c with
  | OptR a => Int.wrap (w_ulong a) <> 0
  | OptW a => Int.wrap (w_ulong a) <> 4
  | _ => False
  end.

(** An option after which the option loop goes on. *)
Definition passes (c : opt) : Prop :=
  match c with
  | OptM | OptX => True
  | OptN a => w_errno a = 0
  | OptR a => w_errno a = 0 /\ Int.wrap (w_ulong a) = 0
  | OptW a => w_errno a = 0 /\ Int.wrap (w_ulong a) = 4
  | OptH | OptL | OptOther => False
  end.

(** [strtoul] reports no error for the option's argument. *)
Definition converts (c : opt) : Prop :=
  match c with
  | OptR a | OptN a | OptW a => w_errno a = 0
  | _ => True
  end.

(** The "not yet implemented" message for an unsupported option. *)
Definition rejection (c : opt) : message :=
  match c with
  | OptR _ => MsgRegion
  | _ => MsgWidth
  end.

(** Events that touch no device: texts on the standard streams. *)
Definition is_message (e : event) : Prop :=
  match e with
  | EvPrint _ _ | EvPerror _ => True
  | _ => False
  end.

(** Events of the read loop and the single store: accesses through the
    mapping and the rows printed. *)
Definition body_event (e : event) : Prop :=
  match e with
  | EvLoad _ _ | EvStore _ _ | EvOutside _ | EvPrint Stdout (MsgWord _ _) => True
  | _ => False
  end.

(** What an option that passes does to the locals: the assignments of
    its [case]. *)
Definition apply_option (c : opt) (l : locals) : locals :=
  match c with
  | OptM => set_mode l MODE_MONITOR
  | OptX => set_forever (set_mode l MODE_MONITOR) 0
  | OptR a => set_region l (Int.wrap (w_ulong a))
  | OptN a => set_count l (Int.wrap (w_ulong a))
  | OptW a => set_width l (Int.wrap (w_ulong a))
  | OptH | OptL | OptOther => l
  end.

Definition apply_options (opts : list opt) (l : locals) : locals :=
  fold_left (fun l c => apply_option c l) opts l.

(** The state after a run of options that pass: the last one left
    [errno] at 0. *)
Definition options_done (opts : list opt) (s : state) : state :=
  match opts with
  | [] => s
  | _ => State (st_mem s) (st_trace s) 0
  end.

(** An option that selects the monitor. *)
Definition selects_monitor (c : opt) : Prop :=
  match c with
  | OptM | OptX => True
  | _ => False
  end.

Definition is_count_option (c : opt) : Prop :=
  match c with
  | OptN _ => True
  | _ => False
  end.

(** Events of the interrupt protocol on the raw descriptor. *)
Definition monitor_event (e : event) : Prop :=
  match e with
  | EvPwrite _ _ _ _ _ | EvPread _ _ _ _ _ | EvFtime _ _
  | EvPrint Stdout (MsgInterrupt _ _ _) | EvPrint Stdout (MsgWaiting _) => True
  | _ => False
  end.

(** Events of the mapping: [mmap], [munmap] and the accesses through the
    mapped pointer. *)
Definition mapping_event (e : event) : Prop :=
  match e with
  | EvMmap _ _ _ | EvMunmap _ | EvLoad _ _ | EvStore _ _ | EvOutside _ => True
  | _ => False
  end.

(** 1 when the top bit of the byte is set, 0 otherwise. *)
Definition high_bit (b : byte) : Z := if 128 <=? byte_val b then 1 else 0.

(** Fixtures for concrete runs. *)
Definition x86 : platform := Platform true false.
Definition arm : platform := Platform false false.
Definition uio0 : string := "/dev/uio0".
Definition zeroed : memory := fun _ => x00.

(** A world where the device opens as descriptor 3 and [mmap] fails. *)
Definition unmappable : world :=
  World 3 false (fun _ => 4) (fun _ => (4, Buf4 x01 x00 x00 x00))
        (fun _ => (1386115200, 0)).

(** A world where the device opens as descriptor 3 and the acknowledging
    write of turn [k] and of every later turn fails. *)
Definition failing_from (k : nat) : world :=
  World 3 true (fun i => if (i <? k)%nat then 4 else -1)
        (fun _ => (4, Buf4 x07 x00 x00 x00)) (fun _ => (1386115200, 0)).

(** A world where the device opens as descriptor 3, maps, and every
    interrupt wait returns the count in [buf]. *)
Definition steady (buf : buf4) : world :=
  World 3 true (fun _ => 4) (fun _ => (4, buf)) (fun _ => (1386115200, 0)).

(** * Properties *)

(** ** Integers and bytes *)

Lemma wrap_in_range (z : Z) : Int.in_range z -> Int.wrap z = z.
Proof.
  unfold Int.in_range, Int.wrap, Int.min_signed, Int.max_signed,
    Int.half_modulus, Int.modulus.
  intros H. rewrite Z.mod_small; lia.
Qed.

Lemma wrap_range (z : Z) : Int.in_range (Int.wrap z).
Proof.
  unfold Int.in_range, Int.wrap, Int.min_signed, Int.max_signed,
    Int.half_modulus, Int.modulus.
  pose proof (Z.mod_pos_bound (z + 2147483648) 4294967296). lia.
Qed.

Lemma unsigned_wrap (z : Z) : Int.unsigned (Int.wrap z) = z mod Int.modulus.
Proof.
  unfold Int.unsigned, Int.wrap, Int.half_modulus, Int.modulus.
  rewrite Zminus_mod, Zmod_mod, <- Zminus_mod.
  f_equal. lia.
Qed.

Lemma byte_val_range (b : byte) : 0 <= byte_val b < 256.
Proof.
  unfold byte_val. pose proof (Byte.to_N_bounded b). lia.
Qed.

Lemma byte_val_of_Z (z : Z) : byte_val (byte_of_Z z) = z mod 256.
Proof.
  unfold byte_val, byte_of_Z.
  pose proof (Z.mod_pos_bound z 256 eq_refl) as Hz.
  destruct (Byte.of_N (Z.to_N (z mod 256))) as [b|] eqn:E.
  - apply Byte.to_of_N in E. rewrite E. lia.
  - apply Byte.of_N_None_iff in E. lia.
Qed.

Lemma byte_of_Z_val (b : byte) : byte_of_Z (byte_val b) = b.
Proof.
  unfold byte_of_Z. pose proof (byte_val_range b) as Hb.
  rewrite Z.mod_small by lia. unfold byte_val.
  rewrite N2Z.id, Byte.of_to_N. reflexivity.
Qed.

Lemma le_u32_range (b : buf4) : 0 <= le_u32 b < Int.modulus.
Proof.
  unfold le_u32, Int.modulus.
  pose proof (byte_val_range (b0 b)); pose proof (byte_val_range (b1 b));
    pose proof (byte_val_range (b2 b)); pose proof (byte_val_range (b3 b)).
  lia.
Qed.

Lemma be_u32_range (b : buf4) : 0 <= be_u32 b < Int.modulus.
Proof.
  unfold be_u32, Int.modulus.
  pose proof (byte_val_range (b0 b)); pose proof (byte_val_range (b1 b));
    pose proof (byte_val_range (b2 b)); pose proof (byte_val_range (b3 b)).
  lia.
Qed.

(** Splitting a 32-bit value into its four base-256 digits. *)
Lemma digits_256 (v : Z) :
  v mod 256 + 256 * ((v / 256) mod 256) + 65536 * ((v / 65536) mod 256)
  + 16777216 * ((v / 16777216) mod 256) = v mod 4294967296.
Proof.
  pose proof (Z.div_mod v 256 ltac:(lia)) as H0.
  pose proof (Z.div_mod (v / 256) 256 ltac:(lia)) as H1.
  pose proof (Z.div_mod (v / 65536) 256 ltac:(lia)) as H2.
  pose proof (Z.div_mod (v / 16777216) 256 ltac:(lia)) as H3.
  rewrite Z.div_div in H1, H2, H3 by lia.
  change (256 * 256) with 65536 in H1. change (65536 * 256) with 16777216 in H2.
  change (16777216 * 256) with 4294967296 in H3.
  pose proof (Z.mod_pos_bound v 256 eq_refl).
  pose proof (Z.mod_pos_bound (v / 256) 256 eq_refl).
  pose proof (Z.mod_pos_bound (v / 65536) 256 eq_refl).
  pose proof (Z.mod_pos_bound (v / 16777216) 256 eq_refl).
  apply Z.mod_unique with (q := v / 4294967296); lia.
Qed.

Lemma le_u32_le_bytes (v : Z) : le_u32 (le_bytes v) = v mod Int.modulus.
Proof.
  unfold le_u32, le_bytes; cbn [b0 b1 b2 b3].
  rewrite !byte_val_of_Z. apply digits_256.
Qed.

(** ** The register image *)

Lemma mem_set_same (m : memory) (o : Z) (b : byte) : mem_set m o b o = b.
Proof. unfold mem_set. rewrite Z.eqb_refl. reflexivity. Qed.

Lemma mem_set_other (m : memory) (o x : Z) (b : byte) :
  x <> o -> mem_set m o b x = m x.
Proof. unfold mem_set. intros H. apply Z.eqb_neq in H. rewrite H. reflexivity. Qed.

Lemma bytes_at_put_bytes (m : memory) (off : Z) (b : buf4) :
  bytes_at (put_bytes m off b) off = b.
Proof.
  destruct b as [c0 c1 c2 c3]. unfold bytes_at, put_bytes; cbn [b0 b1 b2 b3].
  f_equal.
  - rewrite !mem_set_other by lia. apply mem_set_same.
  - rewrite !(mem_set_other _ _ (off + 1)) by lia. apply mem_set_same.
  - rewrite (mem_set_other _ _ (off + 2)) by lia. apply mem_set_same.
  - apply mem_set_same.
Qed.

Lemma put_bytes_outside (m : memory) (off : Z) (b : buf4) (o : Z) :
  o < off \/ off + 4 <= o -> put_bytes m off b o = m o.
Proof.
  intros H. unfold put_bytes. rewrite !mem_set_other by lia. reflexivity.
Qed.

Lemma word_at_put_word (pf : platform) (m : memory) (off v : Z) :
  word_at pf (put_word pf m off v) off = v mod Int.modulus.
Proof.
  unfold word_at, put_word. destruct (big_endian pf).
  - rewrite bytes_at_put_bytes. unfold be_u32; cbn [b0 b1 b2 b3].
    apply (le_u32_le_bytes v).
  - rewrite bytes_at_put_bytes. apply le_u32_le_bytes.
Qed.

Lemma put_word_outside (pf : platform) (m : memory) (off v o : Z) :
  o < off \/ off + 4 <= o -> put_word pf m off v o = m o.
Proof.
  intros H. unfold put_word. destruct (big_endian pf);
    apply put_bytes_outside; exact H.
Qed.

Lemma word_at_range (pf : platform) (m : memory) (off : Z) :
  0 <= word_at pf m off < Int.modulus.
Proof.
  unfold word_at. destruct (big_endian pf);
    [apply be_u32_range | apply le_u32_range].
Qed.

Lemma withinb_spec (p : mapping) (off : Z) : withinb p off = true <-> within p off.
Proof.
  unfold withinb, within. rewrite andb_true_iff, !Z.leb_le. reflexivity.
Qed.

(** ** The monitor loop *)

Lemma after_nil (s : state) : after s [] = s.
Proof. destruct s; unfold after; cbn. rewrite app_nil_r. reflexivity. Qed.

Lemma after_after (s : state) (e1 e2 : list event) :
  after (after s e1) e2 = after s (e1 ++ e2).
Proof. unfold after; cbn. rewrite app_assoc. reflexivity. Qed.

Ltac run_prog :=
  cbv beta iota zeta delta
    [bind ret stop exit emit print perror sys_open sys_mmap sys_munmap
     sys_close sys_pwrite sys_pread sys_ftime get_errno set_errno];
  cbn [st_mem st_trace st_errno].

(** One turn of the loop, by the results of its two transfers. *)
Lemma monitor_loop_short_ack pf w fuel i fd forever s :
  pwrite_result w i <> 4 ->
  monitor_loop pf w (S fuel) i fd forever s =
  (Stop (Exited EXIT_FAILURE),
   after s [ack_event w fd i; EvPerror "uioctl"; EvPrint Stderr MsgClearing]).
Proof.
  intros H. apply Z.eqb_neq in H. cbn [monitor_loop]. run_prog.
  rewrite H. cbn. unfold after. rewrite <- !app_assoc. reflexivity.
Qed.

Lemma monitor_loop_short_wait pf w fuel i fd forever s :
  pwrite_result w i = 4 -> fst (pread_result w i) <> 4 ->
  monitor_loop pf w (S fuel) i fd forever s =
  (Stop (Exited EXIT_FAILURE),
   after s [ack_event w fd i; wait_event w fd i; stamp_event w i;
            EvPerror "uioctl"; EvPrint Stderr MsgReading]).
Proof.
  intros H1 H2. apply Z.eqb_neq in H2. cbn [monitor_loop]. run_prog.
  unfold after, ack_event, wait_event, stamp_event.
  rewrite H1, H2. cbn. rewrite <- !app_assoc. reflexivity.
Qed.

Lemma monitor_loop_full pf w fuel i fd forever s :
  full_transfer w i ->
  monitor_loop pf w (S fuel) i fd forever s =
  if forever =? 0
  then (Ret tt, after s (iteration pf w fd i))
  else monitor_loop pf w fuel (S i) fd forever (after s (iteration pf w fd i)).
Proof.
  intros [H1 H2]. cbn [monitor_loop]. run_prog.
  unfold after, iteration, ack_event, wait_event, stamp_event, report_event.
  rewrite H1, H2. cbn. rewrite <- !app_assoc. cbn.
  destruct (forever =? 0); reflexivity.
Qed.

(** Every run of the loop is a number of whole turns, all with full
    transfers, followed by one of the four ways of leaving off. *)
Lemma monitor_loop_shape pf w fd forever fuel :
  forall i s,
  exists n r tail,
    monitor_loop pf w fuel i fd forever s =
      (r, after s (flat_map (iteration pf w fd) (seq i n) ++ tail))
    /\ (forall j, (i <= j < i + n)%nat -> full_transfer w j)
    /\ loop_end w fd forever fuel i n r tail.
Proof.
  induction fuel as [|fuel IH]; intros i s.
  - exists 0%nat, (Stop Running), []. cbn. rewrite after_nil.
    split; [reflexivity | split; [lia | constructor; auto]].
  - destruct (Z.eq_dec (pwrite_result w i) 4) as [Hw|Hw].
    2:{ pose proof (end_short_ack w fd forever (S fuel) i 0) as E.
        rewrite Nat.add_0_r in E.
        exists 0%nat. do 2 eexists.
        split; [| split; [lia | apply E; [lia | exact Hw]]].
        now rewrite monitor_loop_short_ack. }
    destruct (Z.eq_dec (fst (pread_result w i)) 4) as [Hr|Hr].
    2:{ pose proof (end_short_wait w fd forever (S fuel) i 0) as E.
        rewrite Nat.add_0_r in E.
        exists 0%nat. do 2 eexists.
        split; [| split; [lia | apply E; [lia | assumption ..]]].
        now rewrite monitor_loop_short_wait. }
    assert (Hi : full_transfer w i) by (split; assumption).
    rewrite monitor_loop_full by exact Hi.
    destruct (forever =? 0) eqn:Hf.
    + exists 1%nat, (Ret tt), []. cbn [seq flat_map]. rewrite !app_nil_r.
      split; [reflexivity | split].
      * intros j Hj. now replace j with i by lia.
      * apply end_single; [now apply Z.eqb_eq | reflexivity].
    + apply Z.eqb_neq in Hf.
      destruct (IH (S i) (after s (iteration pf w fd i)))
        as (n & r & tail & E & Hfull & Hend).
      exists (S n), r, tail. rewrite E, after_after. cbn [seq flat_map].
      rewrite <- app_assoc. split; [reflexivity | split].
      * intros j Hj. destruct (Nat.eq_dec j i) as [->|Hne]; [exact Hi|].
        apply Hfull. lia.
      * destruct Hend as [Hn Hb | H0 Hn | Hlt Ha | Hlt Ha Hb].
        -- apply end_budget; [lia | now left].
        -- contradiction.
        -- replace (S i + n)%nat with (i + S n)%nat in * by lia.
           apply end_short_ack; [lia | assumption].
        -- replace (S i + n)%nat with (i + S n)%nat in * by lia.
           apply end_short_wait; [lia | assumption ..].
Qed.

(** [monitor], once the device file is open, is the loop followed by
    [close] and [exit(EXIT_SUCCESS)]. *)
Lemma monitor_run pf w fuel fpath forever mem :
  run (monitor pf w fuel fpath forever) mem =
  let s0 := State mem [EvPrint Stdout (MsgWaiting fpath);
                       EvOpen fpath (open_result w)] 0 in
  if open_result w <? 1
  then (Exited EXIT_FAILURE,
        after s0 [EvPerror "uioctl"; EvPrint Stderr (MsgCouldntOpen fpath)])
  else match monitor_loop pf w fuel 0 (open_result w) forever s0 with
       | (Ret _, s) => (Exited EXIT_SUCCESS, after s [EvClose (open_result w)])
       | (Stop o, s) => (o, s)
       end.
Proof.
  unfold run, monitor. run_prog. cbn [app].
  destruct (open_result w <? 1); [reflexivity|].
  destruct (monitor_loop pf w fuel 0 (open_result w) forever _) as [[[]|o] s];
    reflexivity.
Qed.

(** With [forever] set the loop does not come to its end. *)
Lemma monitor_loop_forever pf w fd forever fuel i s :
  forever <> 0 ->
  exists o s', monitor_loop pf w fuel i fd forever s = (Stop o, s')
               /\ (o = Running \/ o = Exited EXIT_FAILURE).
Proof.
  intros Hf.
  destruct (monitor_loop_shape pf w fd forever fuel i s)
    as (n & r & tail & E & _ & Hend).
  rewrite E. destruct Hend; try contradiction; eauto.
Qed.

(** ** Order of the acknowledging write and the wait read *)

Lemma last_event_app prev l1 l2 :
  last_event prev (l1 ++ l2) = last_event (last_event prev l1) l2.
Proof. apply fold_left_app. Qed.

Lemma waits_acked_app prev l1 l2 :
  waits_acked prev (l1 ++ l2) <->
  waits_acked prev l1 /\ waits_acked (last_event prev l1) l2.
Proof.
  revert prev. induction l1 as [|e l1 IH]; intros prev; cbn.
  - tauto.
  - rewrite IH. unfold last_event. cbn. tauto.
Qed.

Lemma last_event_some pre x :
  last_event None pre = Some x -> exists pre', pre = pre' ++ [x].
Proof.
  destruct pre as [|y pre] using rev_ind; cbn.
  - discriminate.
  - rewrite last_event_app. cbn. intros [= ->]. eauto.
Qed.

Lemma waits_acked_ordered tr : waits_acked None tr -> ack_before_wait tr.
Proof.
  intros H pre post fd n off r d ->.
  apply waits_acked_app in H. destruct H as [_ [H _]].
  now apply last_event_some.
Qed.

Lemma waits_acked_turns pf w fd n :
  forall i prev,
    (forall j, (i <= j < i + n)%nat -> full_transfer w j) ->
    waits_acked prev (flat_map (iteration pf w fd) (seq i n)).
Proof.
  induction n as [|n IH]; intros i prev Hfull; cbn [seq flat_map].
  - exact I.
  - destruct (Hfull i ltac:(lia)) as [Hw _].
    unfold iteration at 1. cbn [app waits_acked].
    unfold ack_event at 2. rewrite Hw.
    repeat split. apply IH. intros j Hj. apply Hfull. lia.
Qed.

Lemma waits_acked_loop_end w fd forever fuel n r tail prev :
  loop_end w fd forever fuel 0 n r tail -> waits_acked prev tail.
Proof.
  intros H.
  destruct H as [? ? | ? ? | ? Ha | ? Ha Hb];
    unfold ack_event, wait_event, stamp_event; cbn [waits_acked];
    rewrite ?Ha; repeat split.
Qed.

Lemma monitor_run_open_failure pf w fuel fpath forever mem :
  open_result w < 1 ->
  run (monitor pf w fuel fpath forever) mem =
  (Exited EXIT_FAILURE,
   State mem (monitor_header w fpath
              ++ [EvPerror "uioctl"; EvPrint Stderr (MsgCouldntOpen fpath)]) 0).
Proof.
  intros H. apply Z.ltb_lt in H. rewrite monitor_run. cbv zeta. rewrite H.
  reflexivity.
Qed.

Lemma monitor_run_shape pf w fuel fpath forever mem :
  1 <= open_result w ->
  exists n l tail,
    loop_end w (open_result w) forever fuel 0 n l tail
    /\ (forall i, (i < n)%nat -> full_transfer w i)
    /\ run (monitor pf w fuel fpath forever) mem =
       (fst (monitor_finish w l),
        State mem (monitor_header w fpath
                   ++ flat_map (iteration pf w (open_result w)) (seq 0 n)
                   ++ tail ++ snd (monitor_finish w l)) 0).
Proof.
  intros Hfd. rewrite monitor_run. cbv zeta.
  apply Z.ltb_ge in Hfd. rewrite Hfd.
  destruct (monitor_loop_shape pf w (open_result w) forever fuel 0%nat
              (State mem (monitor_header w fpath) 0))
    as (n & l & tail & E & Hfull & Hend).
  unfold monitor_header in E. rewrite E.
  exists n, l, tail. split; [exact Hend|].
  split; [intros i Hi; apply Hfull; lia|].
  destruct l as [[]|o]; unfold after, monitor_header;
    cbn [fst snd st_mem st_trace st_errno monitor_finish];
    rewrite <- ?app_assoc, ?app_nil_r; reflexivity.
Qed.

(** C7. Monitor ordering.  A run of [monitor] that opened the device is a
    header, then some number [n] of whole turns -- acknowledging write,
    wait read, time stamp, report, each transfer of 4 bytes -- and then
    the way the loop leaves off: out of the model's budget, at its end
    after a single-shot turn, or with [EXIT_FAILURE] at the first transfer
    of fewer than 4 bytes, after which the trace holds no further turn.
    In every run each wait read comes right after an acknowledging write
    that moved all 4 bytes. *)
Theorem monitor_ordering pf w fuel fpath forever mem :
  let r := run (monitor pf w fuel fpath forever) mem in
  ack_before_wait (trace_of r)
  /\ ((open_result w < 1
       /\ outcome_of r = Exited EXIT_FAILURE
       /\ trace_of r = monitor_header w fpath
                       ++ [EvPerror "uioctl"; EvPrint Stderr (MsgCouldntOpen fpath)])
      \/
      (1 <= open_result w
       /\ exists n l tail,
           loop_end w (open_result w) forever fuel 0 n l tail
           /\ (forall i, (i < n)%nat -> full_transfer w i)
           /\ outcome_of r = fst (monitor_finish w l)
           /\ trace_of r = monitor_header w fpath
                           ++ flat_map (iteration pf w (open_result w)) (seq 0 n)
                           ++ tail ++ snd (monitor_finish w l))).
Proof.
  intros r. subst r.
  destruct (Z_lt_ge_dec (open_result w) 1) as [Hfd|Hfd].
  - rewrite monitor_run_open_failure by exact Hfd.
    unfold trace_of, outcome_of; cbn [fst snd st_trace]. split.
    + apply waits_acked_ordered. cbn. repeat split.
    + left. repeat split. exact Hfd.
  - destruct (monitor_run_shape pf w fuel fpath forever mem ltac:(lia))
      as (n & l & tail & Hend & Hfull & E).
    rewrite E. unfold trace_of, outcome_of; cbn [fst snd st_trace]. split.
    + apply waits_acked_ordered. unfold monitor_header.
      cbn [app waits_acked]. split; [exact I|]. split; [exact I|].
      apply waits_acked_app. split.
      * apply waits_acked_turns. intros j Hj. apply Hfull. lia.
      * apply waits_acked_app. split.
        -- eapply waits_acked_loop_end; eassumption.
        -- destruct l; cbn; auto.
    + right. split; [lia|]. exists n, l, tail.
      split; [exact Hend|]. split; [exact Hfull|]. split; reflexivity.
Qed.

(** C6. Single-shot termination.  With the single-shot flag ([forever]
    is 0) a run whose device opens and whose first two transfers are full
    does the acknowledge-then-wait turn exactly once, closes the device
    and exits with [EXIT_SUCCESS]; whatever the transfers do, a
    single-shot run exits.  Without the flag no run exits with success: it
    exits with [EXIT_FAILURE] on an input/output error or is still in the
    loop, and as long as the transfers are full it is still in the loop
    after any number of turns. *)
Theorem single_shot_termination pf w fpath forever fuel mem :
  let fd := open_result w in
  (forever = 0 -> 1 <= fd -> full_transfer w 0 ->
   run (monitor pf w (S fuel) fpath forever) mem =
   (Exited EXIT_SUCCESS,
    State mem (monitor_header w fpath ++ iteration pf w fd 0 ++ [EvClose fd]) 0))
  /\ (forever = 0 ->
      exists status,
        outcome_of (run (monitor pf w (S fuel) fpath forever) mem) = Exited status)
  /\ (forever <> 0 ->
      outcome_of (run (monitor pf w fuel fpath forever) mem) = Running
      \/ outcome_of (run (monitor pf w fuel fpath forever) mem)
         = Exited EXIT_FAILURE)
  /\ (forever <> 0 -> 1 <= fd ->
      (forall i, (i < fuel)%nat -> full_transfer w i) ->
      run (monitor pf w fuel fpath forever) mem =
      (Running,
       State mem (monitor_header w fpath
                  ++ flat_map (iteration pf w fd) (seq 0 fuel)) 0)).
Proof.
  intros fd. subst fd. repeat apply conj.
  - intros -> Hfd Hfull. rewrite monitor_run. cbv zeta.
    apply Z.ltb_ge in Hfd. rewrite Hfd.
    rewrite monitor_loop_full by exact Hfull. cbn [Z.eqb].
    unfold after, monitor_header; cbn [st_mem st_trace st_errno].
    rewrite <- !app_assoc. reflexivity.
  - intros ->. destruct (Z_lt_ge_dec (open_result w) 1) as [Hfd|Hfd].
    + rewrite monitor_run_open_failure by exact Hfd. eexists; reflexivity.
    + destruct (monitor_run_shape pf w (S fuel) fpath 0 mem ltac:(lia))
        as (n & l & tail & Hend & _ & E).
      rewrite E. unfold outcome_of; cbn [fst].
      destruct Hend as [_ [?|?] | ? ? | ? ? | ? ? ?]; cbn;
        try contradiction; try discriminate; eexists; reflexivity.
  - intros Hf. destruct (Z_lt_ge_dec (open_result w) 1) as [Hfd|Hfd].
    + rewrite monitor_run_open_failure by exact Hfd. now right.
    + destruct (monitor_run_shape pf w fuel fpath forever mem ltac:(lia))
        as (n & l & tail & Hend & _ & E).
      rewrite E. unfold outcome_of; cbn [fst].
      destruct Hend; cbn; try contradiction; auto.
  - intros Hf Hfd Hfull.
    destruct (monitor_run_shape pf w fuel fpath forever mem Hfd)
      as (n & l & tail & Hend & _ & E).
    rewrite E.
    destruct Hend as [-> _ | ? ? | Hlt Ha | Hlt Ha Hb]; cbn [fst snd monitor_finish].
    + rewrite !app_nil_r. reflexivity.
    + contradiction.
    + destruct (Hfull n Hlt). contradiction.
    + destruct (Hfull n Hlt). contradiction.
Qed.

Lemma single_shot_termination_witness :
  1 <= open_result (steady startval)
  /\ full_transfer (steady startval) 0
  /\ run (monitor x86 (steady startval) 1 uio0 0) zeroed =
     (Exited EXIT_SUCCESS,
      State zeroed
        [EvPrint Stdout (MsgWaiting uio0); EvOpen uio0 3;
         EvPwrite 3 startval 4 0 4; EvPread 3 4 0 4 startval;
         EvFtime 1386115200 0;
         EvPrint Stdout (MsgInterrupt 1386115200 0 16777216);
         EvClose 3] 0)
  /\ run (monitor x86 (steady startval) 2 uio0 1) zeroed =
     (Running,
      State zeroed
        (monitor_header (steady startval) uio0
         ++ flat_map (iteration x86 (steady startval) 3) (seq 0 2)) 0).
Proof.
  split; [cbn; lia|]. split; [split; reflexivity|]. split.
  - apply (proj1 (single_shot_termination x86 (steady startval) uio0 0 0 zeroed)).
    + reflexivity.
    + cbn; lia.
    + split; reflexivity.
  - apply (proj2 (proj2 (proj2
             (single_shot_termination x86 (steady startval) uio0 1 2 zeroed)))).
    + discriminate.
    + cbn; lia.
    + intros i _. split; reflexivity.
Defined.

(** ** The acknowledging value *)

Lemma in_iteration pf w fd i e :
  In e (iteration pf w fd i) ->
  e = ack_event w fd i \/ e = wait_event w fd i
  \/ e = stamp_event w i \/ e = report_event pf w i.
Proof. cbn. intuition auto. Qed.

(** C1, as the code has it.  The buffer every acknowledging write of a
    [monitor] run hands to [pwrite] is [startval], the bytes 0, 0, 0, 1,
    and read as a little-endian integer, the way the interrupt count is
    read, those bytes are 16777216, not 1; they are 1 read big-endian. *)
Theorem acknowledge_value pf w fuel fpath forever mem fd data n off ret :
  In (EvPwrite fd data n off ret)
     (trace_of (run (monitor pf w fuel fpath forever) mem)) ->
  data = startval /\ n = 4 /\ off = 0
  /\ le_u32 data = 16777216 /\ le_u32 data <> 1 /\ be_u32 data = 1.
Proof.
  intros Hin.
  assert (Hdata : data = startval /\ n = 4 /\ off = 0).
  { destruct (Z_lt_ge_dec (open_result w) 1) as [Hfd|Hfd].
    - rewrite monitor_run_open_failure in Hin by exact Hfd.
      cbn in Hin. intuition discriminate.
    - destruct (monitor_run_shape pf w fuel fpath forever mem ltac:(lia))
        as (k & l & tail & Hend & _ & E).
      rewrite E in Hin. unfold trace_of in Hin; cbn [snd st_trace] in Hin.
      rewrite !in_app_iff in Hin. destruct Hin as [H | [H | [H | H]]].
      + cbn in H. intuition discriminate.
      + apply in_flat_map in H. destruct H as (i & _ & H).
        apply in_iteration in H.
        unfold ack_event, wait_event, stamp_event, report_event in H.
        destruct H as [H | [H | [H | H]]]; inversion H; auto.
      + destruct Hend; unfold ack_event, wait_event, stamp_event in H;
          cbn in H; intuition (try discriminate);
          match goal with E : _ = EvPwrite _ _ _ _ _ |- _ => inversion E end;
          auto.
      + destruct l; cbn in H; intuition discriminate. }
  destruct Hdata as (-> & -> & ->).
  repeat split; try reflexivity. discriminate.
Qed.

Lemma acknowledge_value_witness :
  In (EvPwrite 3 startval 4 0 4)
     (trace_of (run (monitor x86 (steady startval) 1 uio0 0) zeroed))
  /\ le_u32 startval = 16777216.
Proof.
  assert (H : In (EvPwrite 3 startval 4 0 4)
                (trace_of (run (monitor x86 (steady startval) 1 uio0 0) zeroed))).
  { cbn. right. right. left. reflexivity. }
  split; [exact H|].
  exact (proj1 (proj2 (proj2 (proj2
           (acknowledge_value x86 (steady startval) 1 uio0 0 zeroed
              3 startval 4 0 4 H))))).
Defined.

(** ** The reported interrupt count *)

Lemma char_to_int_small pf b : byte_val b < 128 -> char_to_int pf b = byte_val b.
Proof.
  intros H. unfold char_to_int.
  destruct (128 <=? byte_val b) eqn:E.
  - apply Z.leb_le in E. lia.
  - rewrite andb_false_r. reflexivity.
Qed.

Lemma char_to_int_unsigned pf b :
  char_signed pf = false -> char_to_int pf b = byte_val b.
Proof. intros H. unfold char_to_int. rewrite H. reflexivity. Qed.

(** X22. Where every byte of the buffer is below 128 the count that is
    printed is the unsigned little-endian value of the buffer, on every
    platform. *)
Lemma interrupt_count_small pf buf :
  byte_val (b0 buf) < 128 -> byte_val (b1 buf) < 128 ->
  byte_val (b2 buf) < 128 -> byte_val (b3 buf) < 128 ->
  interrupt_count pf buf = le_u32 buf.
Proof.
  intros H0 H1 H2 H3. unfold interrupt_count, le_u32.
  rewrite !char_to_int_small by assumption.
  pose proof (byte_val_range (b0 buf)); pose proof (byte_val_range (b1 buf));
    pose proof (byte_val_range (b2 buf)); pose proof (byte_val_range (b3 buf)).
  assert (R : forall z, 0 <= z <= 2147483647 -> Int.wrap z = z).
  { intros z Hz. apply wrap_in_range.
    unfold Int.in_range, Int.min_signed, Int.max_signed. lia. }
  unfold Int.add, Int.mul.
  rewrite (R (byte_val (b3 buf) * 16777216)) by lia.
  rewrite (R (byte_val (b2 buf) * 65536)) by lia.
  rewrite (R (byte_val (b1 buf) * 256)) by lia.
  rewrite (R (byte_val (b3 buf) * 16777216 + byte_val (b2 buf) * 65536)) by lia.
  rewrite (R (byte_val (b3 buf) * 16777216 + byte_val (b2 buf) * 65536
              + byte_val (b1 buf) * 256)) by lia.
  rewrite R by lia. lia.
Qed.

(** X23. Where plain [char] is unsigned, the count printed is the
    unsigned little-endian value of the buffer whenever the top byte is
    below 128, that is for every count below 2^31. *)
Lemma interrupt_count_unsigned_char pf buf :
  char_signed pf = false -> byte_val (b3 buf) < 128 ->
  interrupt_count pf buf = le_u32 buf.
Proof.
  intros Hs H3. unfold interrupt_count, le_u32.
  rewrite !char_to_int_unsigned by assumption.
  pose proof (byte_val_range (b0 buf)); pose proof (byte_val_range (b1 buf));
    pose proof (byte_val_range (b2 buf)); pose proof (byte_val_range (b3 buf)).
  assert (R : forall z, 0 <= z <= 2147483647 -> Int.wrap z = z).
  { intros z Hz. apply wrap_in_range.
    unfold Int.in_range, Int.min_signed, Int.max_signed. lia. }
  unfold Int.add, Int.mul.
  rewrite (R (byte_val (b3 buf) * 16777216)) by lia.
  rewrite (R (byte_val (b2 buf) * 65536)) by lia.
  rewrite (R (byte_val (b1 buf) * 256)) by lia.
  rewrite (R (byte_val (b3 buf) * 16777216 + byte_val (b2 buf) * 65536)) by lia.
  rewrite (R (byte_val (b3 buf) * 16777216 + byte_val (b2 buf) * 65536
              + byte_val (b1 buf) * 256)) by lia.
  rewrite R by lia. lia.
Qed.

(** C3, as the code has it.  With the top byte 128 the count printed is
    -2147483648 on every platform while the unsigned little-endian value
    of the buffer is 2147483648; where plain [char] is signed a low byte
    of 128 already prints -128 for the value 128, as in the single-shot
    run below. *)
Theorem interrupt_count_high_bytes :
  (forall pf, interrupt_count pf (Buf4 x00 x00 x00 x80) = -2147483648)
  /\ le_u32 (Buf4 x00 x00 x00 x80) = 2147483648
  /\ interrupt_count x86 (Buf4 x80 x00 x00 x00) = -128
  /\ le_u32 (Buf4 x80 x00 x00 x00) = 128
  /\ run (monitor x86 (steady (Buf4 x80 x00 x00 x00)) 1 uio0 0) zeroed =
     (Exited EXIT_SUCCESS,
      State zeroed
        [EvPrint Stdout (MsgWaiting uio0); EvOpen uio0 3;
         EvPwrite 3 startval 4 0 4;
         EvPread 3 4 0 4 (Buf4 x80 x00 x00 x00);
         EvFtime 1386115200 0;
         EvPrint Stdout (MsgInterrupt 1386115200 0 (-128));
         EvClose 3] 0).
Proof.
  split; [intros [[] e]; reflexivity|].
  repeat split.
Qed.

(** ** The register-access core *)

Ltac run_access :=
  unfold run, access; run_prog; cbn [app].

Lemma access_open_failure pf w l mem :
  open_result w < 1 ->
  run (access pf w l) mem =
  (Exited EXIT_FAILURE,
   State mem [EvOpen (fpath l) (open_result w); EvPerror "uioctl";
              EvPrint Stderr (MsgCouldntOpen (fpath l))] 0).
Proof.
  intros H. apply Z.ltb_lt in H. run_access. rewrite H. reflexivity.
Qed.

Lemma access_mmap_failure pf w l mem :
  1 <= open_result w -> mmap_succeeds w = false ->
  run (access pf w l) mem =
  (Exited EXIT_FAILURE,
   State mem [EvOpen (fpath l) (open_result w);
              EvMmap (map_length_of l) (open_result w) false;
              EvPerror "mmap"; EvPrint Stderr MsgCouldntMmap] 0).
Proof.
  intros H Hm. apply Z.ltb_ge in H. run_access. rewrite H, Hm. reflexivity.
Qed.

(** The core once the device is open and mapped: the read loop or the
    single store, then [munmap] and [close]. *)
Lemma access_mapped pf w l mem :
  1 <= open_result w -> mmap_succeeds w = true ->
  run (access pf w l) mem =
  let fd := open_result w in
  let ptr := Mapping (map_length_of l) in
  let s0 := State mem [EvOpen (fpath l) fd; EvMmap (map_length_of l) fd true] 0 in
  match (if mode_eqb (mode l) MODE_READ
         then read_loop pf (Z.to_nat (count l)) ptr (width l) (addr l)
         else store pf ptr (addr l) (Int.unsigned (value l))) s0 with
  | (Ret _, s) =>
      (Exited EXIT_SUCCESS,
       after s [EvMunmap (Int.mul (count l) (width l)); EvClose fd])
  | (Stop o, s) => (o, s)
  end.
Proof.
  intros H Hm. apply Z.ltb_ge in H. run_access. rewrite H, Hm.
  cbv zeta. cbn [st_mem st_trace st_errno app]. fold (map_length_of l).
  destruct (mode_eqb (mode l) MODE_READ);
    match goal with
    | |- context [read_loop ?a ?b ?c ?d ?e ?f] =>
        destruct (read_loop a b c d e f) as [[[]|o] s]
    | |- context [store ?a ?b ?c ?d ?e] =>
        destruct (store a b c d e) as [[[]|o] s]
    end;
    unfold after; cbn [st_mem st_trace st_errno];
    rewrite <- ?app_assoc; reflexivity.
Qed.

Lemma store_within pf p off v s :
  within p off ->
  store pf p off v s =
  (Ret tt, State (put_word pf (st_mem s) off v)
                 (st_trace s ++ [EvStore off v]) (st_errno s)).
Proof. intros H. apply withinb_spec in H. unfold store. rewrite H. reflexivity. Qed.

Lemma store_outside pf p off v s :
  ~ within p off ->
  store pf p off v s = (Stop Faulted, after s [EvOutside off]).
Proof.
  intros H. unfold store. destruct (withinb p off) eqn:E; [|reflexivity].
  apply withinb_spec in E. contradiction.
Qed.

Lemma load_within pf p off s :
  within p off ->
  load pf p off s =
  (Ret (word_at pf (st_mem s) off),
   after s [EvLoad off (word_at pf (st_mem s) off)]).
Proof. intros H. apply withinb_spec in H. unfold load. rewrite H. reflexivity. Qed.

(** The read loop over [n] words that lie within the mapping. *)
Lemma read_loop_within pf p n :
  forall a s,
    0 <= a -> a + 4 * Z.of_nat n <= map_length p ->
    map_length p <= Int.max_signed ->
    read_loop pf n p 4 a s =
    (Ret tt,
     after s (flat_map (fun i => read_turn pf (st_mem s) (a + 4 * Z.of_nat i))
                       (seq 0 n))).
Proof.
  induction n as [|n IH]; intros a s Ha Hlen Hmax.
  - cbn. rewrite after_nil. reflexivity.
  - cbn [read_loop]. unfold bind at 1.
    rewrite load_within by (unfold within; lia).
    unfold bind, print, emit. cbn [st_mem st_trace st_errno after].
    assert (Hadd : Int.add a 4 = a + 4).
    { apply wrap_in_range. unfold Int.in_range, Int.min_signed, Int.max_signed in *.
      lia. }
    rewrite Hadd, IH by (cbn [st_mem]; lia).
    unfold after; cbn [st_mem st_trace st_errno].
    cbn [seq flat_map]. rewrite <- seq_shift.
    rewrite (flat_map_concat_map _ (map S _)), map_map, <- flat_map_concat_map.
    unfold read_turn at 1.
    pose proof (word_at_range pf (st_mem s) a) as Hv.
    rewrite unsigned_wrap, Z.mod_small by exact Hv.
    unfold Int.unsigned. rewrite Z.mod_small
      by (unfold Int.modulus, Int.max_signed in *; lia).
    change (Z.of_nat 0) with 0. rewrite Z.mul_0_r, Z.add_0_r, <- !app_assoc.
    cbn [app].
    do 3 f_equal. unfold read_turn. cbn [app]. do 2 f_equal.
    apply flat_map_ext. intros i.
    replace (a + 4 * Z.of_nat (S i)) with (a + 4 + 4 * Z.of_nat i) by lia.
    reflexivity.
Qed.

Lemma map_length_exact l :
  width l = 4 -> 0 <= addr l -> 0 <= count l ->
  4 * count l + addr l <= Int.max_signed ->
  Int.mul (count l) (width l) = 4 * count l
  /\ map_length_of l = 4 * count l + addr l.
Proof.
  intros Hw Ha Hc Hmax. unfold map_length_of, Int.add, Int.mul. rewrite Hw.
  unfold Int.max_signed in Hmax.
  assert (R : forall z, 0 <= z <= 2147483647 -> Int.wrap z = z).
  { intros z Hz. apply wrap_in_range.
    unfold Int.in_range, Int.min_signed, Int.max_signed. lia. }
  rewrite (R (count l * 4)) by lia. rewrite R by lia. lia.
Qed.

Lemma words_printed_app t1 t2 :
  words_printed (t1 ++ t2) = words_printed t1 ++ words_printed t2.
Proof. apply flat_map_app. Qed.

Lemma words_printed_read_turns pf m (f : nat -> Z) idxs :
  words_printed (flat_map (fun i => read_turn pf m (f i)) idxs) =
  map (fun i => (f i, word_at pf m (f i))) idxs.
Proof.
  induction idxs as [|i idxs IH]; [reflexivity|].
  cbn [flat_map map]. rewrite words_printed_app, IH. reflexivity.
Qed.

Lemma ascending_addresses (a : Z) n :
  forall start,
    StronglySorted Z.lt (map (fun i => a + 4 * Z.of_nat i) (seq start n)).
Proof.
  induction n as [|n IH]; intros start; cbn [seq map]; constructor.
  - apply IH.
  - apply Forall_forall. intros x Hx.
    apply in_map_iff in Hx. destruct Hx as (i & <- & Hi).
    apply in_seq in Hi. lia.
Qed.

(** The read run over a mapping that opened: the trace in full. *)
Lemma access_read_run pf w l mem :
  mode l = MODE_READ -> width l = 4 ->
  0 <= addr l -> 0 <= count l -> 4 * count l + addr l <= Int.max_signed ->
  1 <= open_result w -> mmap_succeeds w = true ->
  run (access pf w l) mem =
  (Exited EXIT_SUCCESS,
   State mem
     ([EvOpen (fpath l) (open_result w);
       EvMmap (4 * count l + addr l) (open_result w) true]
      ++ flat_map (fun i => read_turn pf mem (addr l + 4 * Z.of_nat i))
                  (seq 0 (Z.to_nat (count l)))
      ++ [EvMunmap (4 * count l); EvClose (open_result w)]) 0).
Proof.
  intros Hm Hw Ha Hc Hmax Hfd Hmap.
  destruct (map_length_exact l Hw Ha Hc Hmax) as [Hsize Hlen].
  rewrite access_mapped by assumption. cbv zeta.
  rewrite Hm, Hsize, Hlen, Hw. cbn [mode_eqb].
  rewrite read_loop_within by (cbn [map_length]; lia).
  unfold after; cbn [st_mem st_trace st_errno].
  rewrite <- !app_assoc. reflexivity.
Qed.

(** C5. Sequence.  A read of [count] words from [addr] over a device that
    opens and maps prints exactly [count] rows; row [i] is the address
    [addr + 4 * i] and the unsigned native-order word of the register
    image at that offset; the addresses are strictly ascending. *)
Theorem read_sequence pf w l mem :
  mode l = MODE_READ -> width l = 4 ->
  0 <= addr l -> 0 <= count l -> 4 * count l + addr l <= Int.max_signed ->
  1 <= open_result w -> mmap_succeeds w = true ->
  let r := run (access pf w l) mem in
  let rows := words_printed (trace_of r) in
  outcome_of r = Exited EXIT_SUCCESS
  /\ rows = map (fun i => (addr l + 4 * Z.of_nat i,
                           word_at pf mem (addr l + 4 * Z.of_nat i)))
                (seq 0 (Z.to_nat (count l)))
  /\ Z.of_nat (List.length rows) = count l
  /\ StronglySorted Z.lt (map fst rows).
Proof.
  intros Hm Hw Ha Hc Hmax Hfd Hmap r rows. subst rows r.
  rewrite access_read_run by assumption.
  unfold outcome_of, trace_of; cbn [fst snd st_trace].
  assert (E : words_printed
                ([EvOpen (fpath l) (open_result w);
                  EvMmap (4 * count l + addr l) (open_result w) true]
                 ++ flat_map (fun i => read_turn pf mem (addr l + 4 * Z.of_nat i))
                             (seq 0 (Z.to_nat (count l)))
                 ++ [EvMunmap (4 * count l); EvClose (open_result w)])
              = map (fun i => (addr l + 4 * Z.of_nat i,
                               word_at pf mem (addr l + 4 * Z.of_nat i)))
                    (seq 0 (Z.to_nat (count l)))).
  { rewrite !words_printed_app.
    rewrite (words_printed_read_turns pf mem (fun i => addr l + 4 * Z.of_nat i)).
    cbn. apply app_nil_r. }
  rewrite E. split; [reflexivity|]. split; [reflexivity|]. split.
  - rewrite length_map, length_seq. lia.
  - rewrite map_map. cbn [fst]. apply ascending_addresses.
Qed.

Lemma read_sequence_witness :
  words_printed
    (trace_of (run (access x86 (steady startval)
                      (Locals MODE_READ uio0 0 8 0 3 4 1)) zeroed))
  = [(8, 0); (12, 0); (16, 0)].
Proof.
  apply (read_sequence x86 (steady startval)
           (Locals MODE_READ uio0 0 8 0 3 4 1) zeroed);
    cbn; (reflexivity || lia || discriminate).
Defined.

(** ** The single store *)

Lemma access_write_run pf w l mem :
  mode l = MODE_WRITE ->
  1 <= open_result w -> mmap_succeeds w = true ->
  within (Mapping (map_length_of l)) (addr l) ->
  run (access pf w l) mem =
  (Exited EXIT_SUCCESS,
   State (put_word pf mem (addr l) (Int.unsigned (value l)))
     [EvOpen (fpath l) (open_result w);
      EvMmap (map_length_of l) (open_result w) true;
      EvStore (addr l) (Int.unsigned (value l));
      EvMunmap (Int.mul (count l) (width l));
      EvClose (open_result w)] 0).
Proof.
  intros Hm Hfd Hmap Hin. rewrite access_mapped by assumption. cbv zeta.
  rewrite Hm. cbn [mode_eqb]. rewrite store_within by exact Hin. reflexivity.
Qed.

Lemma access_write_outside pf w l mem :
  mode l = MODE_WRITE ->
  1 <= open_result w -> mmap_succeeds w = true ->
  ~ within (Mapping (map_length_of l)) (addr l) ->
  run (access pf w l) mem =
  (Faulted,
   State mem
     [EvOpen (fpath l) (open_result w);
      EvMmap (map_length_of l) (open_result w) true;
      EvOutside (addr l)] 0).
Proof.
  intros Hm Hfd Hmap Hout. rewrite access_mapped by assumption. cbv zeta.
  rewrite Hm. cbn [mode_eqb]. rewrite store_outside by exact Hout. reflexivity.
Qed.

(** C10. Write frame effect.  A write run leaves every byte of the
    register image outside [addr, addr + 4) as it was and stores at most
    one word, at [addr]; when the device opens and maps and the word at
    [addr] lies within the mapping, it stores exactly that one word,
    whatever the word count -- the count shows only in the lengths
    passed to [mmap] and [munmap]. *)
Theorem write_frame pf w l mem :
  mode l = MODE_WRITE ->
  let r := run (access pf w l) mem in
  (forall o, o < addr l \/ addr l + 4 <= o -> memory_of r o = mem o)
  /\ (words_stored (trace_of r) = []
      \/ words_stored (trace_of r) = [(addr l, Int.unsigned (value l))])
  /\ (1 <= open_result w -> mmap_succeeds w = true ->
      within (Mapping (map_length_of l)) (addr l) ->
      outcome_of r = Exited EXIT_SUCCESS
      /\ words_stored (trace_of r) = [(addr l, Int.unsigned (value l))]
      /\ word_at pf (memory_of r) (addr l) = Int.unsigned (value l)
      /\ trace_of r = [EvOpen (fpath l) (open_result w);
                       EvMmap (map_length_of l) (open_result w) true;
                       EvStore (addr l) (Int.unsigned (value l));
                       EvMunmap (Int.mul (count l) (width l));
                       EvClose (open_result w)]).
Proof.
  intros Hm r. subst r.
  destruct (Z_lt_ge_dec (open_result w) 1) as [Hfd|Hfd].
  { rewrite access_open_failure by exact Hfd.
    split; [reflexivity|]. split; [now left | lia]. }
  destruct (mmap_succeeds w) eqn:Hmap.
  2:{ rewrite access_mmap_failure by (assumption || lia).
      split; [reflexivity|]. split; [now left | discriminate]. }
  destruct (withinb (Mapping (map_length_of l)) (addr l)) eqn:Hin.
  - apply withinb_spec in Hin.
    rewrite access_write_run by (assumption || lia).
    unfold memory_of, trace_of, outcome_of; cbn [fst snd st_mem st_trace].
    split; [intros o Ho; now apply put_word_outside|].
    split; [now right|]. intros _ _ _.
    split; [reflexivity|]. split; [reflexivity|]. split; [|reflexivity].
    rewrite word_at_put_word. apply Z.mod_small.
    unfold Int.unsigned. apply Z.mod_pos_bound. reflexivity.
  - assert (Hout : ~ within (Mapping (map_length_of l)) (addr l)).
    { intros H. apply withinb_spec in H. congruence. }
    rewrite access_write_outside by (assumption || lia).
    split; [reflexivity|]. split; [now left|]. intros _ _ H. contradiction.
Qed.

Lemma write_frame_witness :
  let r := run (access x86 (steady startval)
                  (Locals MODE_WRITE uio0 (Int.wrap 3735928559) 8 0 5 4 1))
               zeroed in
  within (Mapping 28) 8
  /\ outcome_of r = Exited EXIT_SUCCESS
  /\ words_stored (trace_of r) = [(8, 3735928559)]
  /\ memory_of r 7 = x00 /\ memory_of r 12 = x00.
Proof.
  pose proof (write_frame x86 (steady startval)
                (Locals MODE_WRITE uio0 (Int.wrap 3735928559) 8 0 5 4 1)
                zeroed eq_refl) as H.
  cbv zeta in *. destruct H as (Hframe & _ & Hrun).
  assert (Hin : within (Mapping 28) 8) by (unfold within; cbn; lia).
  destruct (Hrun ltac:(cbn; lia) eq_refl Hin) as (Ho & Hs & _).
  split; [exact Hin|]. split; [exact Ho|]. split; [exact Hs|].
  split; apply Hframe; cbn; lia.
Defined.

(** ** Write, then read *)

Lemma map_length_in_range l : map_length_of l <= Int.max_signed.
Proof.
  unfold map_length_of, Int.add.
  pose proof (wrap_range (Int.mul (count l) (width l) + addr l)) as H.
  unfold Int.in_range in H. lia.
Qed.

(** C4. Round trip.  A write of the 32-bit value [v] at an address
    within the mapping, followed by a one-word read at the same address,
    prints exactly one row: that address and [v]. *)
Theorem write_read_round_trip pf w lw lr mem v :
  mode lw = MODE_WRITE -> value lw = Int.wrap v -> 0 <= v < Int.modulus ->
  mode lr = MODE_READ -> count lr = 1 -> addr lr = addr lw ->
  within (Mapping (map_length_of lw)) (addr lw) ->
  within (Mapping (map_length_of lr)) (addr lr) ->
  1 <= open_result w -> mmap_succeeds w = true ->
  let written := run (access pf w lw) mem in
  let r := run (access pf w lr) (memory_of written) in
  outcome_of written = Exited EXIT_SUCCESS
  /\ outcome_of r = Exited EXIT_SUCCESS
  /\ words_printed (trace_of r) = [(addr lw, v)].
Proof.
  intros Hmw Hv Hrange Hmr Hc Ha Hinw Hinr Hfd Hmap written r.
  subst written r.
  rewrite (access_write_run pf w lw) by assumption.
  unfold memory_of; cbn [snd st_mem].
  set (m' := put_word pf mem (addr lw) (Int.unsigned (value lw))).
  assert (E : run (access pf w lr) m' =
              (Exited EXIT_SUCCESS,
               State m'
                 [EvOpen (fpath lr) (open_result w);
                  EvMmap (map_length_of lr) (open_result w) true;
                  EvLoad (addr lr) (word_at pf m' (addr lr));
                  EvPrint Stdout (MsgWord (Int.unsigned (addr lr))
                                    (Int.unsigned (Int.wrap (word_at pf m' (addr lr)))));
                  EvMunmap (Int.mul (count lr) (width lr));
                  EvClose (open_result w)] 0)).
  { rewrite access_mapped by assumption. cbv zeta.
    rewrite Hmr, Hc. change (Z.to_nat 1) with 1%nat. cbn [mode_eqb read_loop].
    unfold bind at 1. rewrite load_within by exact Hinr.
    unfold bind, print, emit, ret, after; cbn [st_mem st_trace st_errno app].
    reflexivity. }
  rewrite E. unfold outcome_of, trace_of; cbn [fst snd st_trace].
  split; [reflexivity|]. split; [reflexivity|].
  cbn [words_printed flat_map app]. subst m'.
  rewrite Ha, word_at_put_word, Hv.
  rewrite !unsigned_wrap, Zmod_mod, (Z.mod_small v) by exact Hrange.
  pose proof (map_length_in_range lr) as Hmax.
  destruct Hinr as [H0 H4]. cbn [map_length] in H4. rewrite Ha in H0, H4.
  unfold Int.unsigned. rewrite (Z.mod_small (addr lw))
    by (unfold Int.modulus, Int.max_signed in *; lia).
  rewrite ?Zmod_mod, ?(Z.mod_small v) by exact Hrange.
  reflexivity.
Qed.

Lemma write_read_round_trip_witness :
  let lw := Locals MODE_WRITE uio0 (Int.wrap 3735928559) 8 0 1 4 1 in
  let lr := Locals MODE_READ uio0 0 8 0 1 4 1 in
  words_printed
    (trace_of (run (access arm (steady startval) lr)
                 (memory_of (run (access arm (steady startval) lw) zeroed))))
  = [(8, 3735928559)].
Proof.
  intros lw lr.
  apply (write_read_round_trip arm (steady startval) lw lr zeroed 3735928559);
    try reflexivity; unfold within, Int.modulus; cbn; lia.
Defined.

(** ** The mapped length and the offsets accessed *)

(** C9 as stated fails: a write with word count 0 at address 8
    ([uioctl -n 0 /dev/uio0 8 5]) maps 8 bytes and then accesses the word
    at offset 8, which does not lie within the mapped length. *)
Lemma mapping_length_counterexample :
  let r := run (main x86 (steady startval) 0
                  [OptN (Word "0" 0 0)]
                  [Word uio0 0 0; Word "8" 8 0; Word "5" 5 0]) zeroed in
  trace_of r = [EvOpen uio0 3; EvMmap 8 3 true; EvOutside 8]
  /\ 4 * 0 + 8 <= 8
  /\ accessed (EvOutside 8) = Some 8
  /\ ~ within (Mapping 8) 8.
Proof.
  cbv zeta. split; [reflexivity|]. split; [lia|]. split; [reflexivity|].
  unfold within; cbn. lia.
Qed.

(** C9, amended.  For a request with word width 4, a start address and a
    word count that are not negative and with [4 * count + addr] within
    [int], over a device that opens and maps: the length mapped is
    [4 * count + addr], and every offset the read loop accesses lies
    within it, as does the offset of the single write when the word
    count is at least 1. *)
Theorem mapping_length_invariant pf w l mem :
  width l = 4 -> 0 <= addr l -> 0 <= count l ->
  4 * count l + addr l <= Int.max_signed ->
  mode l = MODE_READ \/ (mode l = MODE_WRITE /\ 1 <= count l) ->
  1 <= open_result w -> mmap_succeeds w = true ->
  let r := run (access pf w l) mem in
  let len := 4 * count l + addr l in
  outcome_of r = Exited EXIT_SUCCESS
  /\ In (EvMmap len (open_result w) true) (trace_of r)
  /\ (forall n fd ok, In (EvMmap n fd ok) (trace_of r) -> n = len)
  /\ (forall e off, In e (trace_of r) -> accessed e = Some off ->
                    within (Mapping len) off).
Proof.
  intros Hw Ha Hc Hmax Hmode Hfd Hmap r len. subst r len.
  destruct (map_length_exact l Hw Ha Hc Hmax) as [Hsize Hlen].
  destruct Hmode as [Hm | [Hm Hc1]].
  - rewrite access_read_run by assumption.
    unfold outcome_of, trace_of; cbn [fst snd st_trace].
    split; [reflexivity|]. split; [cbn [app]; right; now left|]. split.
    + intros n fd ok Hin. rewrite !in_app_iff in Hin.
      destruct Hin as [Hin | [Hin | Hin]].
      * cbn in Hin. destruct Hin as [Hin | [Hin | []]]; now inversion Hin.
      * apply in_flat_map in Hin. destruct Hin as (i & _ & Hin).
        cbn in Hin. intuition discriminate.
      * cbn in Hin. intuition discriminate.
    + intros e off Hin Hacc. rewrite !in_app_iff in Hin.
      destruct Hin as [Hin | [Hin | Hin]].
      * cbn in Hin. destruct Hin as [<- | [<- | []]]; discriminate.
      * apply in_flat_map in Hin. destruct Hin as (i & Hi & Hin).
        apply in_seq in Hi. unfold read_turn in Hin. cbn [In] in Hin.
        destruct Hin as [<- | [<- | []]]; [|discriminate].
        cbn [accessed] in Hacc.
        assert (Hoff : off = addr l + 4 * Z.of_nat i) by congruence.
        subst off. unfold within; cbn [map_length]. lia.
      * cbn in Hin. destruct Hin as [<- | [<- | []]]; discriminate.
  - assert (Hin : within (Mapping (map_length_of l)) (addr l)).
    { rewrite Hlen. unfold within; cbn [map_length]. lia. }
    rewrite access_write_run by assumption. rewrite Hlen.
    unfold outcome_of, trace_of; cbn [fst snd st_trace].
    split; [reflexivity|]. split; [right; now left|]. split.
    + intros n fd ok H. cbn in H.
      destruct H as [H | [H | [H | [H | [H | []]]]]]; now inversion H.
    + intros e off H Hacc. cbn in H.
      destruct H as [<- | [<- | [<- | [<- | [<- | []]]]]]; try discriminate.
      cbn [accessed] in Hacc. injection Hacc as <-. rewrite <- Hlen. exact Hin.
Qed.

Lemma mapping_length_invariant_witness :
  let l := Locals MODE_READ uio0 0 8 0 3 4 1 in
  let r := run (access x86 (steady startval) l) zeroed in
  In (EvMmap 20 3 true) (trace_of r)
  /\ (In (EvLoad 16 0) (trace_of r) -> within (Mapping 20) 16).
Proof.
  intros l r.
  assert (H1 : 0 <= addr l) by (cbn; lia).
  assert (H2 : 0 <= count l) by (cbn; lia).
  assert (H3 : 4 * count l + addr l <= Int.max_signed)
    by (unfold Int.max_signed; cbn; lia).
  assert (H4 : 1 <= open_result (steady startval)) by (cbn; lia).
  destruct (mapping_length_invariant x86 (steady startval) l zeroed
              eq_refl H1 H2 H3 (or_introl eq_refl) H4 eq_refl)
    as (_ & Hmap & _ & Hacc).
  split; [exact Hmap|]. intros H. apply (Hacc _ _ H). reflexivity.
Defined.

(** ** Rejection of unsupported requests *)

Lemma passes_dec (c : opt) : {passes c} + {~ passes c}.
Proof.
  destruct c as [| | | |a|a|a|]; cbn; auto.
  - destruct (Z.eq_dec (w_errno a) 0), (Z.eq_dec (Int.wrap (w_ulong a)) 0);
      tauto.
  - apply Z.eq_dec.
  - destruct (Z.eq_dec (w_errno a) 0), (Z.eq_dec (Int.wrap (w_ulong a)) 4);
      tauto.
Qed.

Ltac run_option :=
  unfold handle_option, check_errno, strtoul, usage, list_devices; run_prog;
  cbn [region width set_region set_width set_count set_mode set_forever].

(** An option that passes adds no event and leaves [errno] at 0. *)
Lemma handle_option_passes c l s :
  passes c ->
  exists l', handle_option c l s = (Ret l', State (st_mem s) (st_trace s) 0).
Proof.
  destruct c as [| | | |a|a|a|]; cbn [passes]; intros H; try contradiction;
    run_option.
  - eexists; reflexivity.
  - eexists; reflexivity.
  - destruct H as [-> ->]. cbn. eexists; reflexivity.
  - rewrite H. cbn. eexists; reflexivity.
  - destruct H as [-> ->]. cbn. eexists; reflexivity.
Qed.

(** Any other option ends the run in the option loop, with texts only;
    the status is [EXIT_FAILURE] except for the help option. *)
Lemma handle_option_stops c l s :
  ~ passes c ->
  exists status evs e,
    handle_option c l s =
      (Stop (Exited status), State (st_mem s) (st_trace s ++ evs) e)
    /\ Forall is_message evs
    /\ (status = EXIT_FAILURE \/ (status = EXIT_SUCCESS /\ c = OptH)).
Proof.
  assert (Hdone : forall status evs e,
             Forall is_message evs ->
             status = EXIT_FAILURE \/ (status = EXIT_SUCCESS /\ c = OptH) ->
             exists status' evs' e',
               (Stop (A := locals) (Exited status),
                State (st_mem s) (st_trace s ++ evs) e) =
               (Stop (Exited status'),
                State (st_mem s) (st_trace s ++ evs') e')
               /\ Forall is_message evs'
               /\ (status' = EXIT_FAILURE \/ (status' = EXIT_SUCCESS /\ c = OptH))).
  { intros status evs e Hm Hs. exists status, evs, e. auto. }
  destruct c as [| | | |a|a|a|]; cbn [passes]; intros H; try tauto; run_option.
  - apply Hdone; [repeat constructor | auto].
  - apply Hdone; [repeat constructor | auto].
  - destruct (w_errno a =? 0) eqn:E; cbn.
    + apply Z.eqb_eq in E.
      destruct (Int.wrap (w_ulong a) =? 0) eqn:E0;
        [apply Z.eqb_eq in E0; tauto|].
      cbn. apply Hdone; [repeat constructor | auto].
    + rewrite ?E. cbn. apply Hdone; [repeat constructor | auto].
  - destruct (w_errno a =? 0) eqn:E; cbn.
    + apply Z.eqb_eq in E. contradiction.
    + rewrite ?E. cbn. apply Hdone; [repeat constructor | auto].
  - destruct (w_errno a =? 0) eqn:E; cbn.
    + apply Z.eqb_eq in E.
      destruct (Int.wrap (w_ulong a) =? 4) eqn:E0;
        [apply Z.eqb_eq in E0; tauto|].
      cbn. apply Hdone; [repeat constructor | auto].
    + rewrite ?E. cbn. apply Hdone; [repeat constructor | auto].
  - apply Hdone; [repeat constructor | auto].
Qed.

(** An unsupported option whose argument converted is answered with its
    "not yet implemented" text and [EXIT_FAILURE]. *)
Lemma handle_option_unsupported c l s :
  unsupported c -> converts c ->
  handle_option c l s =
  (Stop (Exited EXIT_FAILURE),
   State (st_mem s) (st_trace s ++ [EvPrint Stderr (rejection c)]) 0).
Proof.
  destruct c as [| | | |a|a|a|]; cbn [unsupported converts rejection];
    intros Hu Hc; try contradiction; run_option; rewrite Hc; cbn;
    apply Z.eqb_neq in Hu; rewrite Hu; reflexivity.
Qed.

Lemma unsupported_not_passes c : unsupported c -> ~ passes c.
Proof. destruct c; cbn; tauto. Qed.

Lemma option_loop_cons c rest l s :
  option_loop (c :: rest) l s =
  match handle_option c l s with
  | (Ret l', s') => option_loop rest l' s'
  | (Stop o, s') => (Stop o, s')
  end.
Proof. reflexivity. Qed.

(** A command line with an unsupported option ends in the option loop. *)
Lemma option_loop_unsupported opts :
  Exists unsupported opts ->
  forall l s,
  exists status evs e,
    option_loop opts l s =
      (Stop (Exited status), State (st_mem s) (st_trace s ++ evs) e)
    /\ Forall is_message evs
    /\ (status = EXIT_FAILURE
        \/ (status = EXIT_SUCCESS
            /\ exists pre post, opts = pre ++ OptH :: post /\ Forall passes pre)).
Proof.
  induction opts as [|c rest IH]; intros Hex l s.
  - inversion Hex.
  - rewrite option_loop_cons. destruct (passes_dec c) as [Hp|Hp].
    + destruct (handle_option_passes c l s Hp) as [l' ->].
      assert (Hrest : Exists unsupported rest).
      { inversion Hex as [? ? Hu|]; [|assumption].
        now apply unsupported_not_passes in Hu. }
      destruct (IH Hrest l' (State (st_mem s) (st_trace s) 0))
        as (status & evs & e & -> & Hm & Hs).
      exists status, evs, e. cbn [st_mem st_trace].
      split; [reflexivity|]. split; [exact Hm|].
      destruct Hs as [Hs | (Hs & pre & post & -> & Hpre)]; [now left|].
      right. split; [exact Hs|]. exists (c :: pre), post.
      split; [reflexivity | now constructor].
    + destruct (handle_option_stops c l s Hp) as (status & evs & e & -> & Hm & Hs).
      exists status, evs, e. split; [reflexivity|]. split; [exact Hm|].
      destruct Hs as [Hs | [Hs ->]]; [now left|].
      right. split; [exact Hs|]. exists [], rest. split; [reflexivity|constructor].
Qed.

(** The first option that does not pass decides the run. *)
Lemma option_loop_first pre c post l s :
  Forall passes pre -> unsupported c -> converts c ->
  option_loop (pre ++ c :: post) l s =
  (Stop (Exited EXIT_FAILURE),
   State (st_mem s) (st_trace s ++ [EvPrint Stderr (rejection c)]) 0).
Proof.
  intros Hpre Hu Hc. revert l s.
  induction Hpre as [|p pre Hp _ IH]; intros l s; cbn [app];
    rewrite option_loop_cons.
  - now rewrite handle_option_unsupported.
  - destruct (handle_option_passes p l s Hp) as [l' ->]. now rewrite IH.
Qed.

Lemma main_stops_in_options pf w fuel opts args mem status s :
  option_loop opts init_locals (State mem [] 0) = (Stop (Exited status), s) ->
  run (main pf w fuel opts args) mem = (Exited status, s).
Proof. intros H. unfold run, main, bind. rewrite H. reflexivity. Qed.

(** C8 as stated fails: [uioctl -h -r 1 /dev/uio0] supplies region 1 and
    exits with status 0 after printing the usage text. *)
Lemma unsupported_rejected_counterexample :
  let opts := [OptH; OptR (Word "1" 1 0)] in
  let r := run (main x86 (steady startval) 0 opts [Word uio0 0 0]) zeroed in
  Exists unsupported opts
  /\ outcome_of r = Exited EXIT_SUCCESS
  /\ EXIT_SUCCESS = 0
  /\ trace_of r = [EvPrint Stdout MsgUsage].
Proof.
  cbv zeta. split.
  - apply Exists_cons_tl, Exists_cons_hd. cbn. discriminate.
  - repeat split.
Qed.

(** C8, amended.  A command line with an option for a region other than 0
    or a word width other than 4 ends in the option loop: nothing but
    texts on the standard streams happens, no device file is opened,
    mapped, read or written, and the register image is untouched.  The
    exit status is [EXIT_FAILURE], unless a help option comes first among
    the options that end the loop, and then it is [EXIT_SUCCESS]; when the
    unsupported option is the first option that does not pass and its
    argument converts, the only output is its "not yet implemented"
    text. *)
Theorem unsupported_rejected pf w fuel opts args mem :
  Exists unsupported opts ->
  let r := run (main pf w fuel opts args) mem in
  Forall is_message (trace_of r)
  /\ memory_of r = mem
  /\ (outcome_of r = Exited EXIT_FAILURE
      \/ (outcome_of r = Exited EXIT_SUCCESS
          /\ exists pre post, opts = pre ++ OptH :: post /\ Forall passes pre))
  /\ (forall pre c post,
        opts = pre ++ c :: post -> Forall passes pre ->
        unsupported c -> converts c ->
        outcome_of r = Exited EXIT_FAILURE
        /\ trace_of r = [EvPrint Stderr (rejection c)]).
Proof.
  intros Hex r. subst r.
  destruct (option_loop_unsupported opts Hex init_locals (State mem [] 0))
    as (status & evs & e & E & Hm & Hs).
  rewrite (main_stops_in_options pf w fuel opts args mem _ _ E).
  unfold trace_of, memory_of, outcome_of; cbn [fst snd st_mem st_trace app].
  split; [exact Hm|]. split; [reflexivity|]. split.
  - destruct Hs as [-> | [-> Hh]]; [now left | now right].
  - intros pre c post -> Hpre Hu Hc.
    rewrite option_loop_first in E by assumption.
    cbn [st_mem st_trace app] in E. inversion E. split; reflexivity.
Qed.

Lemma unsupported_rejected_witness :
  let opts := [OptN (Word "2" 2 0); OptW (Word "8" 8 0); OptM] in
  let r := run (main x86 (steady startval) 0 opts [Word uio0 0 0]) zeroed in
  Exists unsupported opts
  /\ outcome_of r = Exited EXIT_FAILURE
  /\ trace_of r = [EvPrint Stderr MsgWidth].
Proof.
  intros opts r.
  assert (Hex : Exists unsupported opts).
  { apply Exists_cons_tl, Exists_cons_hd. cbn. discriminate. }
  split; [exact Hex|].
  destruct (unsupported_rejected x86 (steady startval) 0 opts
              [Word uio0 0 0] zeroed Hex) as (_ & _ & _ & Hfirst).
  apply (Hfirst [OptN (Word "2" 2 0)] (OptW (Word "8" 8 0)) [OptM]).
  - reflexivity.
  - repeat constructor.
  - cbn. discriminate.
  - reflexivity.
Defined.

(** ** Release of the mapping and the descriptor *)

Lemma read_loop_events pf p wd n :
  forall a s,
  exists r evs,
    read_loop pf n p wd a s = (r, State (st_mem s) (st_trace s ++ evs) (st_errno s))
    /\ (r = Ret tt \/ r = Stop Faulted)
    /\ Forall body_event evs.
Proof.
  induction n as [|n IH]; intros a s.
  - exists (Ret tt), []. cbn. rewrite app_nil_r.
    destruct s; split; [reflexivity | split; [now left | constructor]].
  - cbn [read_loop]. unfold bind at 1. unfold load.
    destruct (withinb p a).
    + unfold bind, print, emit. cbn [st_mem st_trace st_errno].
      destruct (IH (Int.add a wd)
                  (State (st_mem s)
                     ((st_trace s ++ [EvLoad a (word_at pf (st_mem s) a)])
                      ++ [EvPrint Stdout
                            (MsgWord (Int.unsigned a)
                               (Int.unsigned (Int.wrap (word_at pf (st_mem s) a))))])
                     (st_errno s)))
        as (r & evs & -> & Hr & Hev).
      cbn [st_mem st_trace st_errno]. do 2 eexists. split; [|split].
      * rewrite <- !app_assoc. reflexivity.
      * exact Hr.
      * cbn [app]. repeat constructor. exact Hev.
    + do 2 eexists. split; [reflexivity | split; [now right | repeat constructor]].
Qed.

(** X21. Release on success.  On the paths that end with [EXIT_SUCCESS]
    the trace is: open, map, the accesses, then one [munmap] and one
    [close], in this order.  The length unmapped is [map_size], the
    length mapped [map_size + addr]. *)
Lemma access_release_on_success pf w l mem :
  outcome_of (run (access pf w l) mem) = Exited EXIT_SUCCESS ->
  exists body,
    trace_of (run (access pf w l) mem) =
      [EvOpen (fpath l) (open_result w);
       EvMmap (map_length_of l) (open_result w) true]
      ++ body
      ++ [EvMunmap (Int.mul (count l) (width l)); EvClose (open_result w)]
    /\ Forall body_event body.
Proof.
  destruct (Z_lt_ge_dec (open_result w) 1) as [Hfd|Hfd].
  { rewrite access_open_failure by exact Hfd. discriminate. }
  destruct (mmap_succeeds w) eqn:Hmap.
  2:{ rewrite access_mmap_failure by (assumption || lia). discriminate. }
  rewrite access_mapped by (assumption || lia). cbv zeta.
  destruct (mode_eqb (mode l) MODE_READ).
  - destruct (read_loop_events pf (Mapping (map_length_of l)) (width l)
                (Z.to_nat (count l)) (addr l)
                (State mem [EvOpen (fpath l) (open_result w);
                            EvMmap (map_length_of l) (open_result w) true] 0))
      as (r & evs & -> & Hr & Hev).
    destruct Hr as [-> | ->]; unfold outcome_of, trace_of, after;
      cbn [fst snd st_mem st_trace st_errno]; [|discriminate].
    intros _. exists evs. rewrite <- app_assoc. auto.
  - unfold store. destruct (withinb _ _);
      unfold outcome_of, trace_of, after;
      cbn [fst snd st_mem st_trace st_errno]; [|discriminate].
    intros _. eexists. split; [reflexivity | repeat constructor].
Qed.

(** C2, as the code has it.  When [mmap] fails, [main] returns
    [EXIT_FAILURE] with the descriptor it opened still open: the trace
    holds the [open] and no [close].  On a successful read at address 8
    the 12 bytes mapped are unmapped with length 4. *)
Theorem release_on_mapping_failure :
  let failed := run (main x86 unmappable 0 []
                       [Word uio0 0 0; Word "0" 0 0]) zeroed in
  let read := run (main x86 (steady startval) 0 []
                     [Word uio0 0 0; Word "8" 8 0]) zeroed in
  outcome_of failed = Exited EXIT_FAILURE
  /\ trace_of failed = [EvOpen uio0 3; EvMmap 4 3 false;
                        EvPerror "mmap"; EvPrint Stderr MsgCouldntMmap]
  /\ ~ In (EvClose 3) (trace_of failed)
  /\ outcome_of read = Exited EXIT_SUCCESS
  /\ trace_of read = [EvOpen uio0 3; EvMmap 12 3 true;
                      EvLoad 8 0; EvPrint Stdout (MsgWord 8 0);
                      EvMunmap 4; EvClose 3].
Proof.
  cbv zeta. split; [reflexivity|]. split; [reflexivity|]. split.
  - cbn. intuition discriminate.
  - split; reflexivity.
Qed.

(** ** Whole runs of [main] *)

(** [monitor] does not return to its caller, whatever the caller goes
    on to do with the result. *)
Lemma monitor_stops pf w fuel fpath forever s (A B : Type) :
  exists o s',
    monitor (A := A) pf w fuel fpath forever s = (Stop o, s')
    /\ monitor (A := B) pf w fuel fpath forever s = (Stop o, s').
Proof.
  unfold monitor. run_prog.
  destruct (open_result w <? 1); [eauto|].
  match goal with
  | |- context [monitor_loop ?a ?b ?c ?d ?e ?f ?g] =>
      destruct (monitor_loop a b c d e f g) as [[[]|o] s']
  end; eauto.
Qed.

(** [-x] selects the monitor with the single-shot flag, [-m] without. *)
Lemma main_monitor_flags pf w fuel dev mem :
  run (main pf w fuel [OptX] [dev]) mem
    = run (monitor pf w fuel (w_text dev) 0) mem
  /\ run (main pf w fuel [OptM] [dev]) mem
    = run (monitor pf w fuel (w_text dev) 1) mem.
Proof.
  split.
  - destruct (monitor_stops pf w fuel (w_text dev) 0 (State mem [] 0) unit Z)
      as (o & s' & E1 & E2).
    unfold run. rewrite E2. unfold main, positional; cbn [option_loop].
    unfold handle_option; run_prog.
    cbn [mode forever fpath set_mode set_forever set_fpath mode_eqb].
    rewrite E1. reflexivity.
  - destruct (monitor_stops pf w fuel (w_text dev) 1 (State mem [] 0) unit Z)
      as (o & s' & E1 & E2).
    unfold run. rewrite E2. unfold main, positional; cbn [option_loop].
    unfold handle_option; run_prog.
    cbn [mode forever fpath set_mode set_forever set_fpath mode_eqb init_locals].
    rewrite E1. reflexivity.
Qed.

(** Two positional arguments after [-n] make a read request, three a
    write request; the register-access core runs on the locals they
    set. *)
Lemma main_read_request pf w fuel n dev a mem :
  w_errno n = 0 -> w_errno a = 0 ->
  run (main pf w fuel [OptN n] [dev; a]) mem =
  run (access pf w (Locals MODE_READ (w_text dev) 0 (Int.wrap (w_ulong a)) 0
                           (Int.wrap (w_ulong n)) DEFAULT_WIDTH 1)) mem.
Proof.
  intros Hn Ha. unfold run, main, positional; cbn [option_loop].
  unfold handle_option, check_errno, strtoul; run_prog.
  rewrite Hn, Ha. reflexivity.
Qed.

Lemma main_write_request pf w fuel n dev a v mem :
  w_errno n = 0 -> w_errno a = 0 -> w_errno v = 0 ->
  run (main pf w fuel [OptN n] [dev; a; v]) mem =
  run (access pf w (Locals MODE_WRITE (w_text dev) (Int.wrap (w_ulong v))
                           (Int.wrap (w_ulong a)) 0
                           (Int.wrap (w_ulong n)) DEFAULT_WIDTH 1)) mem.
Proof.
  intros Hn Ha Hv. unfold run, main, positional; cbn [option_loop].
  unfold handle_option, check_errno, strtoul; run_prog.
  rewrite Hn, Ha, Hv. reflexivity.
Qed.

(** The example of the specification: after [0xDEADBEEF] is written to
    address 0 and [1] to address 4, a read of two words from address 0
    prints the two rows. *)
Example write_two_read_two :
  let dev := Word uio0 0 0 in
  let w := steady startval in
  let m1 := memory_of (run (main arm w 0 [] [dev; Word "0" 0 0;
                                            Word "0xDEADBEEF" 3735928559 0])
                         zeroed) in
  let m2 := memory_of (run (main arm w 0 [] [dev; Word "4" 4 0;
                                            Word "1" 1 0]) m1) in
  let r := run (main arm w 0 [OptN (Word "2" 2 0)] [dev; Word "0" 0 0]) m2 in
  outcome_of r = Exited EXIT_SUCCESS
  /\ words_printed (trace_of r) = [(0, 3735928559); (4, 1)].
Proof. cbv zeta. split; reflexivity. Qed.

(** * Further properties of the code *)

(** ** The option loop *)

Lemma handle_option_apply c l s :
  passes c ->
  handle_option c l s =
  (Ret (apply_option c l), State (st_mem s) (st_trace s) 0).
Proof.
  destruct c as [| | | |a|a|a|]; cbn [passes]; intros H; try contradiction;
    run_option; try reflexivity.
  - destruct H as [-> H]. cbn. rewrite H. reflexivity.
  - rewrite H. reflexivity.
  - destruct H as [-> H]. cbn. rewrite H. reflexivity.
Qed.

Lemma option_loop_passing pre :
  Forall passes pre ->
  forall rest l s,
    option_loop (pre ++ rest) l s =
    option_loop rest (apply_options pre l) (options_done pre s).
Proof.
  induction 1 as [|c pre Hc _ IH]; intros rest l s; [reflexivity|].
  cbn [app]. rewrite option_loop_cons, handle_option_apply by exact Hc.
  rewrite IH. unfold apply_options; cbn [fold_left].
  destruct pre; reflexivity.
Qed.

Lemma option_loop_all_pass opts l s :
  Forall passes opts ->
  option_loop opts l s = (Ret (apply_options opts l), options_done opts s).
Proof.
  intros H. rewrite <- (app_nil_r opts) at 1.
  rewrite option_loop_passing by exact H. reflexivity.
Qed.

Lemma option_loop_returned opts :
  forall l s l' s',
    option_loop opts l s = (Ret l', s') -> Forall passes opts.
Proof.
  induction opts as [|c opts IH]; intros l s l' s' E; [constructor|].
  rewrite option_loop_cons in E. destruct (passes_dec c) as [Hc|Hc].
  - rewrite handle_option_apply in E by exact Hc.
    constructor; [exact Hc | eapply IH; exact E].
  - destruct (handle_option_stops c l s Hc) as (st & evs & e & E' & _).
    rewrite E' in E. discriminate.
Qed.

Lemma option_loop_rejecting opts :
  ~ Forall passes opts ->
  forall l s,
  exists status evs e,
    option_loop opts l s =
      (Stop (Exited status), State (st_mem s) (st_trace s ++ evs) e)
    /\ Forall is_message evs.
Proof.
  induction opts as [|c opts IH]; intros Hn l s.
  - exfalso. apply Hn. constructor.
  - rewrite option_loop_cons. destruct (passes_dec c) as [Hc|Hc].
    + rewrite handle_option_apply by exact Hc.
      destruct (IH (fun H => Hn (Forall_cons c Hc H)) (apply_option c l)
                  (State (st_mem s) (st_trace s) 0))
        as (st & evs & e & -> & Hm).
      exists st, evs, e. split; [reflexivity | exact Hm].
    + destruct (handle_option_stops c l s Hc) as (st & evs & e & -> & Hm & _).
      exists st, evs, e. split; [reflexivity | exact Hm].
Qed.

(** X1. The option loop runs to its end exactly for command lines made
    of [-m], [-x], [-n] with an argument that converts, [-r] with an
    argument that converts to 0 and [-w] with an argument that converts
    to 4; it then has printed nothing and left the register image as it
    was.  Any other command line ends the run inside the loop, with
    texts on the standard streams and nothing else. *)
Theorem option_loop_accepts opts l s :
  (Forall passes opts
   /\ exists l' e,
       option_loop opts l s = (Ret l', State (st_mem s) (st_trace s) e))
  \/ (~ Forall passes opts
      /\ exists status evs e,
          option_loop opts l s =
            (Stop (Exited status), State (st_mem s) (st_trace s ++ evs) e)
          /\ Forall is_message evs).
Proof.
  destruct (Forall_dec passes passes_dec opts) as [H|H].
  - left. split; [exact H|]. rewrite option_loop_all_pass by exact H.
    destruct opts; destruct s; cbn; eauto.
  - right. split; [exact H|]. now apply option_loop_rejecting.
Qed.

Lemma apply_options_cons c opts l :
  apply_options (c :: opts) l = apply_options opts (apply_option c l).
Proof. reflexivity. Qed.

Lemma apply_options_fields opts :
  Forall passes opts ->
  forall l,
    let l' := apply_options opts l in
    fpath l' = fpath l /\ value l' = value l /\ addr l' = addr l
    /\ (region l = 0 -> region l' = 0)
    /\ (width l = 4 -> width l' = 4)
    /\ (mode l' = MODE_MONITOR <->
        mode l = MODE_MONITOR \/ In OptM opts \/ In OptX opts)
    /\ (mode l' = mode l \/ mode l' = MODE_MONITOR)
    /\ (forever l' = 0 <-> forever l = 0 \/ In OptX opts)
    /\ (forever l' = forever l \/ forever l' = 0).
Proof.
  induction 1 as [|c opts Hc _ IH]; intros l.
  - cbn. intuition auto.
  - cbv zeta. rewrite apply_options_cons.
    specialize (IH (apply_option c l)). cbv zeta in IH.
    destruct IH as (Hf & Hv & Ha & Hr & Hw & Hm & Hm' & Hx & Hx').
    destruct c as [| | | |a|a|a|]; cbn [passes] in Hc; try contradiction;
      cbn [apply_option set_mode set_forever set_region set_count set_width
           fpath value addr region width mode forever] in *;
      (split; [exact Hf|]); (split; [exact Hv|]); (split; [exact Ha|]);
      cbn [In].
    + (* -m *)
      split; [exact Hr|]. split; [exact Hw|].
      split; [intuition (auto; discriminate)|]. split; [intuition auto|].
      split; [rewrite Hx; intuition (auto; discriminate)|exact Hx'].
    + (* -x *)
      split; [exact Hr|]. split; [exact Hw|].
      split; [intuition (auto; discriminate)|]. split; [intuition auto|].
      split; [intuition auto | right; apply Hx; now left].
    + (* -r *)
      destruct Hc as [_ Hc]. split; [intros _; now apply Hr|].
      split; [exact Hw|].
      split; [rewrite Hm; intuition (auto; discriminate)|].
      split; [exact Hm'|].
      split; [rewrite Hx; intuition (auto; discriminate)|exact Hx'].
    + (* -n *)
      split; [exact Hr|]. split; [exact Hw|].
      split; [rewrite Hm; intuition (auto; discriminate)|].
      split; [exact Hm'|].
      split; [rewrite Hx; intuition (auto; discriminate)|exact Hx'].
    + (* -w *)
      destruct Hc as [_ Hc]. split; [exact Hr|].
      split; [intros _; now apply Hw|].
      split; [rewrite Hm; intuition (auto; discriminate)|].
      split; [exact Hm'|].
      split; [rewrite Hx; intuition (auto; discriminate)|exact Hx'].
Qed.

(** X2. When the option loop has run to its end, the region is 0 and the
    word width is 4; the mode is the monitor exactly when [-m] or [-x]
    was given and is the read mode otherwise; the loop flag [forever] is
    0 exactly when [-x] was given and 1 otherwise -- a later [-m] does
    not set it back.  Nothing was printed. *)
Theorem options_invariant opts mem l' s' :
  option_loop opts init_locals (State mem [] 0) = (Ret l', s') ->
  region l' = 0 /\ width l' = 4
  /\ (mode l' = MODE_MONITOR \/ mode l' = MODE_READ)
  /\ (mode l' = MODE_MONITOR <-> In OptM opts \/ In OptX opts)
  /\ (forever l' = 0 \/ forever l' = 1)
  /\ (forever l' = 0 <-> In OptX opts)
  /\ s' = State mem [] 0.
Proof.
  intros E. pose proof (option_loop_returned _ _ _ _ _ E) as Hp.
  rewrite option_loop_all_pass in E by exact Hp.
  injection E as <- <-.
  destruct (apply_options_fields opts Hp init_locals)
    as (_ & _ & _ & Hr & Hw & Hm & Hm' & Hx & Hx').
  cbn [init_locals region width mode forever] in *.
  split; [now apply Hr|]. split; [now apply Hw|].
  split; [destruct Hm' as [->| ->]; auto|].
  split; [rewrite Hm; intuition discriminate|].
  split; [destruct Hx' as [->| ->]; auto|].
  split; [rewrite Hx; intuition discriminate|].
  destruct opts; reflexivity.
Qed.

Lemma options_invariant_witness :
  let opts := [OptX; OptN (Word "3" 3 0); OptM] in
  let l' := Locals MODE_MONITOR EmptyString 0 0 0 3 4 0 in
  option_loop opts init_locals (State zeroed [] 0) = (Ret l', State zeroed [] 0)
  /\ mode l' = MODE_MONITOR /\ forever l' = 0.
Proof.
  intros opts l'.
  assert (E : option_loop opts init_locals (State zeroed [] 0)
              = (Ret l', State zeroed [] 0)) by reflexivity.
  split; [exact E|].
  destruct (options_invariant opts zeroed l' _ E)
    as (_ & _ & _ & Hm & _ & Hx & _).
  split.
  - apply Hm. right. left. reflexivity.
  - apply Hx. left. reflexivity.
Defined.

Lemma apply_options_app pre post l :
  apply_options (pre ++ post) l = apply_options post (apply_options pre l).
Proof. apply fold_left_app. Qed.

Lemma apply_options_count opts :
  forall l, (forall a, ~ In (OptN a) opts) ->
            count (apply_options opts l) = count l.
Proof.
  induction opts as [|c opts IH]; intros l Hn; [reflexivity|].
  rewrite apply_options_cons, IH.
  - destruct c; try reflexivity. exfalso. eapply Hn. left. reflexivity.
  - intros a Ha. eapply Hn. right. exact Ha.
Qed.

(** X3. The word count the run goes on with is 1 when no [-n] was
    given, and otherwise the argument of the last [-n], converted to
    [int]: a later [-n] replaces an earlier one. *)
Theorem last_count_wins opts l' s s' :
  option_loop opts init_locals s = (Ret l', s') ->
  ((forall a, ~ In (OptN a) opts) -> count l' = 1)
  /\ (forall pre a post,
        opts = pre ++ OptN a :: post -> (forall b, ~ In (OptN b) post) ->
        count l' = Int.wrap (w_ulong a)).
Proof.
  intros E. pose proof (option_loop_returned _ _ _ _ _ E) as Hp.
  rewrite option_loop_all_pass in E by exact Hp.
  injection E as <- _. split.
  - intros Hn. now rewrite apply_options_count.
  - intros pre a post -> Hn.
    rewrite apply_options_app, apply_options_cons, apply_options_count
      by exact Hn.
    reflexivity.
Qed.

Lemma last_count_wins_witness :
  let opts := [OptN (Word "3" 3 0); OptM; OptN (Word "0x10" 16 0); OptX] in
  exists l' s',
    option_loop opts init_locals (State zeroed [] 0) = (Ret l', s')
    /\ count l' = 16.
Proof.
  intros opts. do 2 eexists.
  assert (E : option_loop opts init_locals (State zeroed [] 0)
              = (Ret (apply_options opts init_locals), State zeroed [] 0))
    by reflexivity.
  split; [exact E|].
  apply (proj2 (last_count_wins opts _ _ _ E)
           [OptN (Word "3" 3 0); OptM] (Word "0x10" 16 0) [OptX]).
  - reflexivity.
  - intros b [H|[]]. discriminate.
Defined.

(** ** The option that ends the run *)

Lemma main_first_stop pf w fuel pre c post args mem status s' :
  Forall passes pre ->
  handle_option c (apply_options pre init_locals)
                (options_done pre (State mem [] 0))
    = (Stop (Exited status), s') ->
  run (main pf w fuel (pre ++ c :: post) args) mem = (Exited status, s').
Proof.
  intros Hpre E. apply main_stops_in_options.
  rewrite option_loop_passing by exact Hpre.
  rewrite option_loop_cons, E. reflexivity.
Qed.

Lemma options_done_fresh pre mem :
  st_mem (options_done pre (State mem [] 0)) = mem
  /\ st_trace (options_done pre (State mem [] 0)) = [].
Proof. destruct pre; split; reflexivity. Qed.

(** X4. Help.  When every option before [-h] passes, the run prints the
    usage text on standard output and exits with [EXIT_SUCCESS],
    whatever follows on the command line and whether or not a device
    path is given; no device is opened. *)
Theorem help_first pf w fuel pre post args mem :
  Forall passes pre ->
  run (main pf w fuel (pre ++ OptH :: post) args) mem =
  (Exited EXIT_SUCCESS, State mem [EvPrint Stdout MsgUsage] 0).
Proof.
  intros Hpre. apply main_first_stop; [exact Hpre|].
  destruct (options_done_fresh pre mem) as [Hm Ht].
  unfold handle_option, usage. run_prog. rewrite Hm, Ht. reflexivity.
Qed.

Lemma help_first_witness :
  run (main x86 unmappable 0
         [OptN (Word "2" 2 0); OptH; OptR (Word "7" 7 0)] []) zeroed =
  (Exited EXIT_SUCCESS, State zeroed [EvPrint Stdout MsgUsage] 0).
Proof.
  apply (help_first x86 unmappable 0 [OptN (Word "2" 2 0)]
           [OptR (Word "7" 7 0)] [] zeroed).
  repeat constructor.
Defined.

(** X5. Listing.  When every option before [-l] passes, the run prints
    "listing not yet implemented" on standard error and exits with
    [EXIT_FAILURE]; no device is opened. *)
Theorem list_first pf w fuel pre post args mem :
  Forall passes pre ->
  run (main pf w fuel (pre ++ OptL :: post) args) mem =
  (Exited EXIT_FAILURE, State mem [EvPrint Stderr MsgListing] 0).
Proof.
  intros Hpre. apply main_first_stop; [exact Hpre|].
  destruct (options_done_fresh pre mem) as [Hm Ht].
  unfold handle_option, list_devices. run_prog. rewrite Hm, Ht. reflexivity.
Qed.

Lemma list_first_witness :
  run (main x86 (steady startval) 0 [OptM; OptL] [Word uio0 0 0]) zeroed =
  (Exited EXIT_FAILURE, State zeroed [EvPrint Stderr MsgListing] 0).
Proof.
  apply (list_first x86 (steady startval) 0 [OptM] [] [Word uio0 0 0] zeroed).
  repeat constructor.
Defined.

(** X6. An option letter [getopt] does not know, or an option without
    its argument, ends the run with "Unexpected argument; try -h" on
    standard error and [EXIT_FAILURE], when every option before it
    passes; no device is opened. *)
Theorem unknown_option_first pf w fuel pre post args mem :
  Forall passes pre ->
  run (main pf w fuel (pre ++ OptOther :: post) args) mem =
  (Exited EXIT_FAILURE, State mem [EvPrint Stderr MsgUnexpected] 0).
Proof.
  intros Hpre. apply main_first_stop; [exact Hpre|].
  destruct (options_done_fresh pre mem) as [Hm Ht].
  unfold handle_option. run_prog. rewrite Hm, Ht. reflexivity.
Qed.

Lemma unknown_option_first_witness :
  run (main x86 (steady startval) 0 [OptX; OptOther; OptH] [Word uio0 0 0])
      zeroed =
  (Exited EXIT_FAILURE, State zeroed [EvPrint Stderr MsgUnexpected] 0).
Proof.
  apply (unknown_option_first x86 (steady startval) 0 [OptX] [OptH]
           [Word uio0 0 0] zeroed).
  repeat constructor.
Defined.

(** X7. Conversion errors come first.  When [strtoul] sets [errno] for
    the argument of [-r], [-n] or [-w], and every option before passes,
    the run ends with [perror] and [EXIT_FAILURE], and with nothing
    else: the "not yet implemented" text for the region or the width is
    not printed, whatever value the conversion returned. *)
Theorem conversion_error_first pf w fuel pre c a post args mem :
  Forall passes pre ->
  c = OptR a \/ c = OptN a \/ c = OptW a ->
  w_errno a <> 0 ->
  run (main pf w fuel (pre ++ c :: post) args) mem =
  (Exited EXIT_FAILURE, State mem [EvPerror "uioctl"] (w_errno a)).
Proof.
  intros Hpre Hc He. apply main_first_stop; [exact Hpre|].
  destruct (options_done_fresh pre mem) as [Hm Ht].
  apply Z.eqb_neq in He.
  destruct Hc as [-> | [-> | ->]];
    unfold handle_option, check_errno, strtoul; run_prog;
    rewrite He; cbn [st_mem st_trace st_errno]; rewrite He, Hm, Ht;
    reflexivity.
Qed.

Lemma conversion_error_first_witness :
  let huge := Word "99999999999999999999999" 18446744073709551615 ERANGE in
  run (main x86 (steady startval) 0 [OptR huge] [Word uio0 0 0]) zeroed =
  (Exited EXIT_FAILURE, State zeroed [EvPerror "uioctl"] ERANGE).
Proof.
  intros huge.
  apply (conversion_error_first x86 (steady startval) 0 [] (OptR huge) huge []
           [Word uio0 0 0] zeroed).
  - constructor.
  - left. reflexivity.
  - discriminate.
Defined.

(** ** From the command line to the monitor and to the core *)

Lemma option_loop_fresh opts mem l' s' :
  option_loop opts init_locals (State mem [] 0) = (Ret l', s') ->
  s' = State mem [] 0.
Proof.
  intros E. pose proof (option_loop_returned _ _ _ _ _ E) as Hp.
  rewrite option_loop_all_pass in E by exact Hp.
  injection E as _ <-. destruct opts; reflexivity.
Qed.

Lemma main_after_options pf w fuel opts args mem l' s' :
  option_loop opts init_locals (State mem [] 0) = (Ret l', s') ->
  run (main pf w fuel opts args) mem =
  match positional pf w fuel args l' (State mem [] 0) with
  | (Ret l, s) => match access pf w l s with
                  | (Ret status, s1) => (Exited status, s1)
                  | (Stop o, s1) => (o, s1)
                  end
  | (Stop o, s) => (o, s)
  end.
Proof.
  intros E. pose proof (option_loop_fresh _ _ _ _ E) as ->.
  unfold run, main, bind. rewrite E.
  destruct (positional pf w fuel args l' _) as [[l|o] s]; reflexivity.
Qed.

Lemma main_runs_monitor pf w fuel opts dev mem l' s' :
  option_loop opts init_locals (State mem [] 0) = (Ret l', s') ->
  mode l' = MODE_MONITOR ->
  run (main pf w fuel opts [dev]) mem =
  run (monitor pf w fuel (w_text dev) (forever l')) mem.
Proof.
  intros E Hm. rewrite (main_after_options pf w fuel opts [dev] mem l' s' E).
  unfold positional. rewrite Hm. cbn [mode_eqb].
  cbn [fpath forever set_fpath]. unfold bind at 1. unfold bind at 1.
  destruct (monitor_stops pf w fuel (w_text dev) (forever l')
              (State mem [] 0) unit Z) as (o & s1 & E1 & E2).
  rewrite E1. unfold run. rewrite E2. reflexivity.
Qed.

(** X8. Monitor dispatch.  When the options select the monitor and
    exactly one positional argument follows, the run is the run of
    [monitor] on that path with the loop flag the options left; the
    word count, and whatever else the options set, plays no part. *)
Theorem monitor_dispatch pf w fuel opts dev mem l' s' :
  option_loop opts init_locals (State mem [] 0) = (Ret l', s') ->
  mode l' = MODE_MONITOR ->
  run (main pf w fuel opts [dev]) mem =
  run (monitor pf w fuel (w_text dev) (forever l')) mem.
Proof. apply main_runs_monitor. Qed.

Lemma monitor_dispatch_witness :
  run (main x86 (steady startval) 1
         [OptN (Word "9" 9 0); OptX] [Word uio0 0 0]) zeroed =
  run (monitor x86 (steady startval) 1 uio0 0) zeroed.
Proof.
  apply (monitor_dispatch x86 (steady startval) 1
           [OptN (Word "9" 9 0); OptX] (Word uio0 0 0) zeroed
           (Locals MODE_MONITOR EmptyString 0 0 0 9 4 0) (State zeroed [] 0));
    reflexivity.
Defined.

(** X9. Wrong number of arguments.  After options that pass, the
    monitor takes exactly one positional argument and a read or write
    two or three; any other number ends the run with "Wrong number of
    arguments; try -h" on standard error and [EXIT_FAILURE], before any
    device is opened. *)
Theorem wrong_argument_count pf w fuel opts args mem l' s' :
  option_loop opts init_locals (State mem [] 0) = (Ret l', s') ->
  (mode l' = MODE_MONITOR /\ List.length args <> 1%nat)
  \/ (mode l' = MODE_READ
      /\ List.length args <> 2%nat /\ List.length args <> 3%nat) ->
  run (main pf w fuel opts args) mem =
  (Exited EXIT_FAILURE, State mem [EvPrint Stderr MsgWrongArgs] 0).
Proof.
  intros E H. rewrite (main_after_options pf w fuel opts args mem l' s' E).
  unfold positional.
  destruct H as [[Hm Hn] | (Hm & H2 & H3)]; rewrite Hm; cbn [mode_eqb].
  - destruct args as [|a0 [|a1 args]]; cbn in Hn; try contradiction;
      reflexivity.
  - unfold bind at 1. unfold ret at 1. rewrite Hm. cbn [mode_eqb].
    destruct args as [|a0 [|a1 [|a2 [|a3 args]]]]; cbn in H2, H3;
      try contradiction; reflexivity.
Qed.

Lemma wrong_argument_count_witness :
  run (main x86 (steady startval) 0 [] [Word uio0 0 0]) zeroed =
  (Exited EXIT_FAILURE, State zeroed [EvPrint Stderr MsgWrongArgs] 0)
  /\ run (main x86 (steady startval) 0 [OptM] []) zeroed =
     (Exited EXIT_FAILURE, State zeroed [EvPrint Stderr MsgWrongArgs] 0).
Proof.
  split.
  - apply (wrong_argument_count x86 (steady startval) 0 [] [Word uio0 0 0]
             zeroed init_locals (State zeroed [] 0)); [reflexivity|].
    right. repeat split; discriminate.
  - apply (wrong_argument_count x86 (steady startval) 0 [OptM] []
             zeroed (set_mode init_locals MODE_MONITOR) (State zeroed [] 0));
      [reflexivity|].
    left. split; [reflexivity | discriminate].
Defined.

(** X10. Request dispatch.  After options that leave the read mode, two
    positional arguments whose address converts make a read, and three
    whose address and value convert make a write: the run is the run of
    the register-access core on the locals of the options, with the
    path, the address and (for a write) the value and the write mode
    set.  Address and value are the [unsigned long]s of [strtoul]
    converted to [int]. *)
Theorem request_dispatch pf w fuel opts dev a v mem l' s' :
  option_loop opts init_locals (State mem [] 0) = (Ret l', s') ->
  mode l' = MODE_READ ->
  (w_errno a = 0 ->
   run (main pf w fuel opts [dev; a]) mem =
   run (access pf w (set_addr (set_fpath l' (w_text dev))
                              (Int.wrap (w_ulong a)))) mem)
  /\ (w_errno a = 0 -> w_errno v = 0 ->
      run (main pf w fuel opts [dev; a; v]) mem =
      run (access pf w
             (set_value
                (set_addr (set_fpath (set_mode l' MODE_WRITE) (w_text dev))
                          (Int.wrap (w_ulong a)))
                (Int.wrap (w_ulong v)))) mem).
Proof.
  intros E Hm. split.
  - intros Ha.
    rewrite (main_after_options pf w fuel opts [dev; a] mem l' s' E).
    unfold positional. rewrite Hm. cbn [mode_eqb].
    unfold bind at 1. unfold ret at 1. rewrite Hm. cbn [mode_eqb].
    unfold check_errno, strtoul. run_prog. rewrite Ha. reflexivity.
  - intros Ha Hv.
    rewrite (main_after_options pf w fuel opts [dev; a; v] mem l' s' E).
    unfold positional. rewrite Hm. cbn [mode_eqb].
    unfold bind at 1. unfold ret at 1. rewrite Hm. cbn [mode_eqb].
    unfold check_errno, strtoul. run_prog. rewrite Ha, Hv. reflexivity.
Qed.

Lemma request_dispatch_witness :
  let opts := [OptN (Word "2" 2 0)] in
  let dev := Word uio0 0 0 in
  let a := Word "0x10" 16 0 in
  let v := Word "0xffffffff" 4294967295 0 in
  run (main arm (steady startval) 0 opts [dev; a]) zeroed =
  run (access arm (steady startval) (Locals MODE_READ uio0 0 16 0 2 4 1)) zeroed
  /\ run (main arm (steady startval) 0 opts [dev; a; v]) zeroed =
     run (access arm (steady startval) (Locals MODE_WRITE uio0 (-1) 16 0 2 4 1))
         zeroed.
Proof.
  intros opts dev a v.
  destruct (request_dispatch arm (steady startval) 0 opts dev a v zeroed
              (Locals MODE_READ EmptyString 0 0 0 2 4 1) (State zeroed [] 0)
              eq_refl eq_refl) as [Hr Hw].
  split; [exact (Hr eq_refl) | exact (Hw eq_refl eq_refl)].
Defined.

(** X11. Address and value that do not convert.  In a read or write
    request, when [strtoul] sets [errno] for the address, or in a write
    for the value -- [errno] is tested once, after both conversions --
    the run ends with [perror] and [EXIT_FAILURE]; the device is not
    opened and the register image is untouched. *)
Theorem request_conversion_error pf w fuel opts dev a v mem l' s' :
  option_loop opts init_locals (State mem [] 0) = (Ret l', s') ->
  mode l' = MODE_READ ->
  (w_errno a <> 0 ->
   exists e,
     run (main pf w fuel opts [dev; a]) mem =
     (Exited EXIT_FAILURE, State mem [EvPerror "uioctl"] e))
  /\ (w_errno a <> 0 \/ w_errno v <> 0 ->
      exists e,
        run (main pf w fuel opts [dev; a; v]) mem =
        (Exited EXIT_FAILURE, State mem [EvPerror "uioctl"] e)).
Proof.
  intros E Hm. split.
  - intros Ha. apply Z.eqb_neq in Ha.
    rewrite (main_after_options pf w fuel opts [dev; a] mem l' s' E).
    unfold positional. rewrite Hm. cbn [mode_eqb].
    unfold bind at 1. unfold ret at 1. rewrite Hm. cbn [mode_eqb].
    unfold check_errno, strtoul. run_prog. rewrite Ha.
    cbn [st_mem st_trace st_errno]. rewrite Ha. eexists. reflexivity.
  - intros H.
    rewrite (main_after_options pf w fuel opts [dev; a; v] mem l' s' E).
    unfold positional. rewrite Hm. cbn [mode_eqb].
    unfold bind at 1. unfold ret at 1. rewrite Hm. cbn [mode_eqb].
    unfold check_errno, strtoul. run_prog.
    destruct (w_errno a =? 0) eqn:Ea, (w_errno v =? 0) eqn:Ev;
      cbn [st_mem st_trace st_errno]; rewrite ?Ea, ?Ev;
      try (eexists; reflexivity).
    apply Z.eqb_eq in Ea, Ev. tauto.
Qed.

Lemma request_conversion_error_witness :
  let huge := Word "99999999999999999999999" 18446744073709551615 ERANGE in
  exists e,
    run (main x86 (steady startval) 0 []
           [Word uio0 0 0; huge; Word "1" 1 0]) zeroed
    = (Exited EXIT_FAILURE, State zeroed [EvPerror "uioctl"] e).
Proof.
  intros huge.
  destruct (request_conversion_error x86 (steady startval) 0 []
              (Word uio0 0 0) huge (Word "1" 1 0) zeroed
              init_locals (State zeroed [] 0) eq_refl eq_refl) as [_ H].
  apply H. left. discriminate.
Defined.

(** ** The register-access core: failure, read and release *)

Lemma access_mapped_outcome pf w l mem :
  1 <= open_result w -> mmap_succeeds w = true ->
  outcome_of (run (access pf w l) mem) = Exited EXIT_SUCCESS
  \/ outcome_of (run (access pf w l) mem) = Faulted.
Proof.
  intros Hfd Hmap. rewrite access_mapped by assumption. cbv zeta.
  destruct (mode_eqb (mode l) MODE_READ).
  - destruct (read_loop_events pf (Mapping (map_length_of l)) (width l)
                (Z.to_nat (count l)) (addr l)
                (State mem [EvOpen (fpath l) (open_result w);
                            EvMmap (map_length_of l) (open_result w) true] 0))
      as (r & evs & -> & [-> | ->] & _); [now left | now right].
  - unfold store. destruct (withinb _ _); [now left | now right].
Qed.

(** X12. Failure of the core.  The register-access core returns
    [EXIT_FAILURE] exactly when [open] yields a descriptor below 1 --
    descriptor 0 counts as a failure -- or [mmap] fails; it has then
    accessed nothing through a mapping, printed no row and left the
    register image as it was. *)
Theorem access_failure pf w l mem :
  let r := run (access pf w l) mem in
  (outcome_of r = Exited EXIT_FAILURE
   <-> open_result w < 1 \/ mmap_succeeds w = false)
  /\ (outcome_of r = Exited EXIT_FAILURE ->
      memory_of r = mem
      /\ Forall (fun e => accessed e = None) (trace_of r)
      /\ words_printed (trace_of r) = []).
Proof.
  intros r. subst r.
  destruct (Z_lt_ge_dec (open_result w) 1) as [Hfd|Hfd].
  { rewrite access_open_failure by exact Hfd.
    split; [split; auto|]. intros _. repeat constructor. }
  destruct (mmap_succeeds w) eqn:Hmap.
  2:{ rewrite access_mmap_failure by (assumption || lia).
      split; [split; auto|]. intros _. repeat constructor. }
  assert (Hno : outcome_of (run (access pf w l) mem) <> Exited EXIT_FAILURE).
  { destruct (access_mapped_outcome pf w l mem ltac:(lia) Hmap) as [-> | ->];
      discriminate. }
  split; [|intros H; contradiction].
  split; [intros H; contradiction|].
  intros [H | H]; [lia | discriminate].
Qed.

Lemma access_failure_witness :
  let l := Locals MODE_WRITE uio0 5 8 0 1 4 1 in
  let r := run (access x86 (World 0 true (fun _ => 4)
                              (fun _ => (4, startval)) (fun _ => (0, 0))) l)
               zeroed in
  outcome_of r = Exited EXIT_FAILURE /\ memory_of r = zeroed.
Proof.
  intros l r.
  destruct (access_failure x86 (World 0 true (fun _ => 4)
                                  (fun _ => (4, startval)) (fun _ => (0, 0)))
              l zeroed) as [Hiff Hthen].
  assert (H : outcome_of r = Exited EXIT_FAILURE).
  { apply Hiff. left. cbn. lia. }
  split; [exact H | exact (proj1 (Hthen H))].
Defined.

Lemma read_loop_stores_nothing pf p wd n :
  forall a s,
  exists r evs,
    read_loop pf n p wd a s = (r, State (st_mem s) (st_trace s ++ evs) (st_errno s))
    /\ words_stored evs = [].
Proof.
  induction n as [|n IH]; intros a s.
  - exists (Ret tt), []. cbn. rewrite app_nil_r.
    destruct s; split; reflexivity.
  - cbn [read_loop]. unfold bind at 1. unfold load.
    destruct (withinb p a).
    + unfold bind, print, emit. cbn [st_mem st_trace st_errno].
      destruct (IH (Int.add a wd)
                  (State (st_mem s)
                     ((st_trace s ++ [EvLoad a (word_at pf (st_mem s) a)])
                      ++ [EvPrint Stdout
                            (MsgWord (Int.unsigned a)
                               (Int.unsigned (Int.wrap (word_at pf (st_mem s) a))))])
                     (st_errno s)))
        as (r & evs & -> & Hev).
      cbn [st_mem st_trace st_errno]. do 2 eexists. split.
      * rewrite <- !app_assoc. reflexivity.
      * cbn [app words_stored flat_map]. exact Hev.
    + do 2 eexists. split; reflexivity.
Qed.

(** X13. A read leaves the register image alone.  Whatever the address,
    the word count and the results of [open] and [mmap], a run of the
    core in read mode stores nothing and ends with the register image
    it began with. *)
Theorem read_leaves_image pf w l mem :
  mode l = MODE_READ ->
  memory_of (run (access pf w l) mem) = mem
  /\ words_stored (trace_of (run (access pf w l) mem)) = [].
Proof.
  intros Hm.
  destruct (Z_lt_ge_dec (open_result w) 1) as [Hfd|Hfd].
  { rewrite access_open_failure by exact Hfd. split; reflexivity. }
  destruct (mmap_succeeds w) eqn:Hmap.
  2:{ rewrite access_mmap_failure by (assumption || lia). split; reflexivity. }
  rewrite access_mapped by (assumption || lia). cbv zeta.
  rewrite Hm. cbn [mode_eqb].
  destruct (read_loop_stores_nothing pf (Mapping (map_length_of l)) (width l)
              (Z.to_nat (count l)) (addr l)
              (State mem [EvOpen (fpath l) (open_result w);
                          EvMmap (map_length_of l) (open_result w) true] 0))
    as (r & evs & -> & Hs).
  unfold memory_of, trace_of, after.
  destruct r as [[]|o]; cbn [fst snd st_mem st_trace st_errno];
    (split; [reflexivity|]); unfold words_stored in *;
    rewrite !flat_map_app, Hs; reflexivity.
Qed.

Lemma read_leaves_image_witness :
  let l := Locals MODE_READ uio0 0 (-4) 0 2 4 1 in
  memory_of (run (access x86 (steady startval) l) zeroed) = zeroed.
Proof.
  intros l. apply (read_leaves_image x86 (steady startval) l zeroed).
  reflexivity.
Defined.

(** X14. A read of no words.  With a word count of 0 or below, a read
    over a device that opens and maps accesses nothing and prints no
    row; it still maps [map_size + addr] bytes, unmaps [map_size], closes
    the descriptor and returns [EXIT_SUCCESS]. *)
Theorem read_no_words pf w l mem :
  mode l = MODE_READ -> count l <= 0 ->
  1 <= open_result w -> mmap_succeeds w = true ->
  run (access pf w l) mem =
  (Exited EXIT_SUCCESS,
   State mem [EvOpen (fpath l) (open_result w);
              EvMmap (map_length_of l) (open_result w) true;
              EvMunmap (Int.mul (count l) (width l));
              EvClose (open_result w)] 0).
Proof.
  intros Hm Hc Hfd Hmap. rewrite access_mapped by assumption. cbv zeta.
  rewrite Hm. cbn [mode_eqb].
  replace (Z.to_nat (count l)) with 0%nat by lia. reflexivity.
Qed.

Lemma read_no_words_witness :
  run (access x86 (steady startval) (Locals MODE_READ uio0 0 8 0 0 4 1)) zeroed =
  (Exited EXIT_SUCCESS,
   State zeroed [EvOpen uio0 3; EvMmap 8 3 true; EvMunmap 0; EvClose 3] 0).
Proof.
  apply (read_no_words x86 (steady startval)
           (Locals MODE_READ uio0 0 8 0 0 4 1) zeroed);
    cbn; (reflexivity || lia).
Defined.

Lemma word_at_put_word_other pf m off v o :
  o + 4 <= off \/ off + 4 <= o ->
  word_at pf (put_word pf m off v) o = word_at pf m o.
Proof.
  intros H. unfold word_at, bytes_at.
  rewrite !(put_word_outside pf m off v) by lia. reflexivity.
Qed.

Lemma access_read_one pf w l mem :
  mode l = MODE_READ -> count l = 1 ->
  within (Mapping (map_length_of l)) (addr l) ->
  1 <= open_result w -> mmap_succeeds w = true ->
  run (access pf w l) mem =
  (Exited EXIT_SUCCESS,
   State mem
     [EvOpen (fpath l) (open_result w);
      EvMmap (map_length_of l) (open_result w) true;
      EvLoad (addr l) (word_at pf mem (addr l));
      EvPrint Stdout (MsgWord (addr l) (word_at pf mem (addr l)));
      EvMunmap (Int.mul (count l) (width l));
      EvClose (open_result w)] 0).
Proof.
  intros Hm Hc Hin Hfd Hmap.
  rewrite access_mapped by assumption. cbv zeta.
  rewrite Hm, Hc. change (Z.to_nat 1) with 1%nat. cbn [mode_eqb read_loop].
  unfold bind at 1. rewrite load_within by exact Hin.
  unfold bind, print, emit, ret, after; cbn [st_mem st_trace st_errno app].
  pose proof (word_at_range pf mem (addr l)) as Hv.
  pose proof (map_length_in_range l) as Hmax.
  destruct Hin as [H0 H4]. cbn [map_length] in H4.
  rewrite unsigned_wrap, Z.mod_small by exact Hv.
  unfold Int.unsigned. rewrite (Z.mod_small (addr l))
    by (unfold Int.modulus, Int.max_signed in *; lia).
  reflexivity.
Qed.

(** X15. A write does not show elsewhere.  After a write of one word, a
    one-word read at an address at least 4 bytes away prints the word
    that was there before the write. *)
Theorem write_then_read_elsewhere pf w lw lr mem :
  mode lw = MODE_WRITE -> mode lr = MODE_READ -> count lr = 1 ->
  addr lr + 4 <= addr lw \/ addr lw + 4 <= addr lr ->
  within (Mapping (map_length_of lw)) (addr lw) ->
  within (Mapping (map_length_of lr)) (addr lr) ->
  1 <= open_result w -> mmap_succeeds w = true ->
  let written := run (access pf w lw) mem in
  words_printed (trace_of (run (access pf w lr) (memory_of written)))
  = [(addr lr, word_at pf mem (addr lr))].
Proof.
  intros Hmw Hmr Hc Hapart Hinw Hinr Hfd Hmap written. subst written.
  rewrite (access_write_run pf w lw) by assumption.
  unfold memory_of; cbn [snd st_mem].
  rewrite access_read_one by assumption.
  unfold trace_of; cbn [snd st_trace words_printed flat_map app].
  rewrite word_at_put_word_other by exact Hapart. reflexivity.
Qed.

Lemma write_then_read_elsewhere_witness :
  let lw := Locals MODE_WRITE uio0 (Int.wrap 3735928559) 8 0 1 4 1 in
  let lr := Locals MODE_READ uio0 0 4 0 1 4 1 in
  words_printed
    (trace_of (run (access x86 (steady startval) lr)
                 (memory_of (run (access x86 (steady startval) lw) zeroed))))
  = [(4, word_at x86 zeroed 4)].
Proof.
  intros lw lr.
  apply (write_then_read_elsewhere x86 (steady startval) lw lr zeroed);
    try reflexivity; unfold within; cbn; lia.
Defined.

Lemma access_release_on_success_witness :
  let l := Locals MODE_WRITE uio0 5 8 0 1 4 1 in
  exists body,
    trace_of (run (access x86 (steady startval) l) zeroed) =
      [EvOpen uio0 3; EvMmap 12 3 true] ++ body ++ [EvMunmap 4; EvClose 3]
    /\ Forall body_event body.
Proof.
  intros l.
  exact (access_release_on_success x86 (steady startval) l zeroed eq_refl).
Defined.

(** ** The monitor: the count it prints *)

Lemma wrap_add_l a b : Int.wrap (Int.wrap a + b) = Int.wrap (a + b).
Proof.
  unfold Int.wrap, Int.half_modulus, Int.modulus. f_equal.
  replace ((a + 2147483648) mod 4294967296 - 2147483648 + b + 2147483648)
    with ((a + 2147483648) mod 4294967296 + b) by lia.
  rewrite Zplus_mod_idemp_l. f_equal. lia.
Qed.

Lemma wrap_add_r a b : Int.wrap (a + Int.wrap b) = Int.wrap (a + b).
Proof. rewrite Z.add_comm, wrap_add_l. f_equal. lia. Qed.

Lemma wrap_periodic a k : Int.wrap (a + k * Int.modulus) = Int.wrap a.
Proof.
  unfold Int.wrap. f_equal.
  replace (a + k * Int.modulus + Int.half_modulus)
    with (a + Int.half_modulus + k * Int.modulus) by lia.
  apply Z_mod_plus_full.
Qed.

Lemma wrap_sum4 a b c d :
  Int.wrap (Int.wrap (Int.wrap (Int.wrap a + Int.wrap b) + Int.wrap c) + d)
  = Int.wrap (a + b + c + d).
Proof.
  rewrite wrap_add_l.
  replace (Int.wrap (Int.wrap a + Int.wrap b) + Int.wrap c + d)
    with (Int.wrap (Int.wrap a + Int.wrap b) + (Int.wrap c + d)) by lia.
  rewrite wrap_add_l.
  replace (Int.wrap a + Int.wrap b + (Int.wrap c + d))
    with (Int.wrap a + (Int.wrap b + (Int.wrap c + d))) by lia.
  rewrite wrap_add_l.
  replace (a + (Int.wrap b + (Int.wrap c + d)))
    with (a + (Int.wrap c + d) + Int.wrap b) by lia.
  rewrite wrap_add_r.
  replace (a + (Int.wrap c + d) + b) with (a + b + d + Int.wrap c) by lia.
  rewrite wrap_add_r. f_equal. lia.
Qed.

Lemma char_to_int_high_bit pf b :
  char_to_int pf b =
  byte_val b - (if char_signed pf then 256 * high_bit b else 0).
Proof.
  unfold char_to_int, high_bit.
  destruct (char_signed pf), (128 <=? byte_val b); cbn [andb]; lia.
Qed.

(** X16. The count printed, in closed form.  For every buffer the count
    printed is the unsigned little-endian value of the buffer brought
    into the range of [int]; where plain [char] is signed, 256, 65536
    and 16777216 are first taken off for the bytes 0, 1 and 2 that are
    128 or more. *)
Theorem interrupt_count_closed_form pf buf :
  interrupt_count pf buf =
  Int.wrap (le_u32 buf
            - (if char_signed pf
               then 256 * high_bit (b0 buf) + 65536 * high_bit (b1 buf)
                    + 16777216 * high_bit (b2 buf)
               else 0)).
Proof.
  unfold interrupt_count, Int.add, Int.mul.
  rewrite wrap_sum4.
  rewrite !char_to_int_high_bit. unfold le_u32.
  set (s3 := if char_signed pf then 256 * high_bit (b3 buf) else 0).
  assert (Hs3 : exists k, s3 * 16777216 = k * Int.modulus).
  { subst s3. unfold Int.modulus. destruct (char_signed pf).
    - exists (high_bit (b3 buf)). lia.
    - exists 0. lia. }
  destruct Hs3 as [k Hk].
  rewrite <- (wrap_periodic _ k). f_equal.
  destruct (char_signed pf); lia.
Qed.

(** ** The monitor: what a run holds *)

Lemma loop_end_no_mapping w fd forever fuel i n r tail :
  loop_end w fd forever fuel i n r tail ->
  Forall (fun e => ~ mapping_event e) tail
  /\ (forall fd', ~ In (EvClose fd') tail).
Proof.
  intros H; destruct H; unfold ack_event, wait_event, stamp_event; split;
    try (repeat constructor; cbn; tauto);
    intros fd' Hin; cbn in Hin; intuition discriminate.
Qed.

Lemma turns_no_mapping pf w fd idxs :
  Forall (fun e => ~ mapping_event e) (flat_map (iteration pf w fd) idxs)
  /\ (forall fd', ~ In (EvClose fd') (flat_map (iteration pf w fd) idxs)).
Proof.
  split.
  - apply Forall_flat_map, Forall_forall. intros i _.
    unfold iteration, ack_event, wait_event, stamp_event, report_event.
    repeat constructor; cbn; tauto.
  - intros fd' Hin. apply in_flat_map in Hin. destruct Hin as (i & _ & Hin).
    unfold iteration, ack_event, wait_event, stamp_event, report_event in Hin.
    cbn in Hin. intuition discriminate.
Qed.

Lemma monitor_run_off_mapping pf w fuel fpath forever mem :
  memory_of (run (monitor pf w fuel fpath forever) mem) = mem
  /\ Forall (fun e => ~ mapping_event e)
            (trace_of (run (monitor pf w fuel fpath forever) mem)).
Proof.
  destruct (Z_lt_ge_dec (open_result w) 1) as [Hfd|Hfd].
  - rewrite monitor_run_open_failure by exact Hfd.
    split; [reflexivity|]. unfold trace_of, monitor_header; cbn.
    repeat constructor; cbn; tauto.
  - destruct (monitor_run_shape pf w fuel fpath forever mem ltac:(lia))
      as (n & l & tail & Hend & _ & E).
    rewrite E. split; [reflexivity|].
    unfold trace_of; cbn [snd st_trace].
    apply Forall_app; split.
    { unfold monitor_header. repeat constructor; cbn; tauto. }
    apply Forall_app; split; [apply turns_no_mapping|].
    apply Forall_app; split.
    { eapply loop_end_no_mapping; exact Hend. }
    destruct l; cbn; repeat constructor; cbn; tauto.
Qed.

(** X17. The monitor keeps off the mapping.  No run of [monitor] maps
    or unmaps the device or accesses a register through a mapping, and
    the register image is as it was when the run began: the monitor
    works on the raw descriptor only. *)
Theorem monitor_keeps_off_mapping pf w fuel fpath forever mem :
  memory_of (run (monitor pf w fuel fpath forever) mem) = mem
  /\ Forall (fun e => ~ mapping_event e)
            (trace_of (run (monitor pf w fuel fpath forever) mem)).
Proof. apply monitor_run_off_mapping. Qed.

(** X18. Success of the monitor.  A run of [monitor] exits with
    [EXIT_SUCCESS] exactly when the single-shot flag is set, the device
    opens and both transfers of the first turn are full (and the model
    follows at least one turn).  The descriptor is closed exactly on
    that exit: every exit with [EXIT_FAILURE] after the device opened
    leaves it open. *)
Theorem monitor_success pf w fuel fpath forever mem :
  let r := run (monitor pf w fuel fpath forever) mem in
  (outcome_of r = Exited EXIT_SUCCESS
   <-> forever = 0 /\ 1 <= open_result w /\ full_transfer w 0
       /\ fuel <> 0%nat)
  /\ ((exists fd, In (EvClose fd) (trace_of r))
      <-> outcome_of r = Exited EXIT_SUCCESS).
Proof.
  intros r. subst r.
  destruct (Z_lt_ge_dec (open_result w) 1) as [Hfd|Hfd].
  { rewrite monitor_run_open_failure by exact Hfd.
    unfold outcome_of, trace_of, monitor_header; cbn [fst snd st_trace app].
    split; split.
    - discriminate.
    - intros (_ & H & _). lia.
    - intros [fd Hin]. cbn in Hin. intuition discriminate.
    - discriminate. }
  destruct (monitor_run_shape pf w fuel fpath forever mem ltac:(lia))
    as (n & l & tail & Hend & Hfull & E).
  rewrite E. unfold outcome_of, trace_of; cbn [fst snd st_trace].
  destruct (loop_end_no_mapping _ _ _ _ _ _ _ _ Hend) as [_ Htail].
  destruct (turns_no_mapping pf w (open_result w) (seq 0 n)) as [_ Hturns].
  assert (Hclose :
    (exists fd, In (EvClose fd)
                   (monitor_header w fpath
                    ++ flat_map (iteration pf w (open_result w)) (seq 0 n)
                    ++ tail ++ snd (monitor_finish w l)))
    <-> exists u, l = Ret u).
  { split.
    - intros [fd Hin]. rewrite !in_app_iff in Hin.
      destruct Hin as [Hin | [Hin | [Hin | Hin]]].
      + cbn in Hin. intuition discriminate.
      + now apply Hturns in Hin.
      + now apply Htail in Hin.
      + destruct l as [u|o]; [eauto | destruct Hin].
    - intros [u ->]. exists (open_result w). rewrite !in_app_iff.
      do 3 right. now left. }
  assert (Hb : (open_result w <? 1) = false) by (apply Z.ltb_ge; lia).
  assert (Hret : (exists u, l = Ret u)
                 <-> forever = 0 /\ 1 <= open_result w /\ full_transfer w 0
                     /\ fuel <> 0%nat).
  { split.
    - intros [u ->].
      inversion Hend as [| Hf Hn | |]; subst.
      split; [reflexivity|]. split; [lia|]. split; [apply Hfull; lia|].
      intros ->. rewrite monitor_run in E. cbv zeta in E. rewrite Hb in E.
      cbn [monitor_loop] in E. unfold stop in E. discriminate.
    - intros (-> & _ & Hfull0 & Hfuel).
      destruct fuel as [|fuel]; [contradiction|].
      rewrite monitor_run in E. cbv zeta in E. rewrite Hb in E.
      rewrite monitor_loop_full in E by exact Hfull0. cbn [Z.eqb] in E.
      destruct l as [u|o]; [eauto|]. exfalso.
      inversion Hend; subst; cbn in E; discriminate. }
  assert (Hout : fst (monitor_finish w l) = Exited EXIT_SUCCESS
                 <-> exists u, l = Ret u).
  { split.
    - destruct l as [u|o]; [eauto|]. cbn. intros ->.
      inversion Hend.
    - intros [u ->]. reflexivity. }
  split.
  - rewrite Hout. exact Hret.
  - rewrite Hout. exact Hclose.
Qed.

(** X19. The first short transfer.  Without the single-shot flag, when
    the device opens, the transfers of the turns before turn [k] are all
    full and a transfer of turn [k] is not, a run that the model follows
    beyond turn [k] prints exactly [k] interrupt reports and then exits
    with [EXIT_FAILURE]: after a short acknowledging write without
    waiting, after a short wait read without a report. *)
Theorem monitor_first_short_transfer pf w fuel fpath forever mem k :
  forever <> 0 -> 1 <= open_result w -> (k < fuel)%nat ->
  (forall i, (i < k)%nat -> full_transfer w i) ->
  ~ full_transfer w k ->
  let fd := open_result w in
  let r := run (monitor pf w fuel fpath forever) mem in
  outcome_of r = Exited EXIT_FAILURE
  /\ exists tail,
       trace_of r = monitor_header w fpath
                    ++ flat_map (iteration pf w fd) (seq 0 k) ++ tail
       /\ (pwrite_result w k <> 4 ->
           tail = [ack_event w fd k; EvPerror "uioctl";
                   EvPrint Stderr MsgClearing])
       /\ (pwrite_result w k = 4 ->
           tail = [ack_event w fd k; wait_event w fd k; stamp_event w k;
                   EvPerror "uioctl"; EvPrint Stderr MsgReading]).
Proof.
  intros Hf Hfd Hk Hfull Hshort fd r. subst fd r.
  destruct (monitor_run_shape pf w fuel fpath forever mem Hfd)
    as (n & l & tail & Hend & Hfulln & E).
  rewrite E. unfold outcome_of, trace_of; cbn [fst snd st_trace].
  assert (Hn : n = k /\ l = Stop (Exited EXIT_FAILURE)).
  { destruct Hend as [Hn _ | H0 _ | Hlt Ha | Hlt Ha Hb].
    - exfalso. apply Hshort, Hfulln. lia.
    - contradiction.
    - split; [|reflexivity]. cbn [Nat.add] in Ha.
      destruct (Nat.lt_trichotomy n k) as [H | [H | H]]; [|exact H|].
      + destruct (Hfull n H). contradiction.
      + exfalso. apply Hshort, Hfulln. exact H.
    - split; [|reflexivity]. cbn [Nat.add] in Ha, Hb.
      destruct (Nat.lt_trichotomy n k) as [H | [H | H]]; [|exact H|].
      + destruct (Hfull n H). contradiction.
      + exfalso. apply Hshort, Hfulln. exact H. }
  destruct Hn as [-> ->]. cbn [fst snd monitor_finish].
  split; [reflexivity|]. exists tail. rewrite app_nil_r.
  split; [reflexivity|].
  inversion Hend as [| | Hlt Ha | Hlt Ha Hb]; subst; cbn [Nat.add] in *.
  - split; [reflexivity | intros H; contradiction].
  - split; [intros H; contradiction | reflexivity].
Qed.

Lemma monitor_first_short_transfer_witness :
  let r := run (monitor x86 (failing_from 2) 5 uio0 1) zeroed in
  outcome_of r = Exited EXIT_FAILURE
  /\ exists tail,
       trace_of r = monitor_header (failing_from 2) uio0
                    ++ flat_map (iteration x86 (failing_from 2) 3) (seq 0 2)
                    ++ tail.
Proof.
  intros r.
  destruct (monitor_first_short_transfer x86 (failing_from 2) 5 uio0 1 zeroed 2)
    as (Ho & tail & Ht & _).
  - discriminate.
  - cbn; lia.
  - lia.
  - intros i Hi. destruct i as [|[|i]]; [split; reflexivity ..| lia].
  - intros [H _]. cbn in H. discriminate.
  - split; [exact Ho | exists tail; exact Ht].
Defined.

(** ** One mode per run *)

Lemma messages_off_mapping tr :
  Forall is_message tr -> Forall (fun e => ~ mapping_event e) tr.
Proof.
  intros H. eapply Forall_impl; [|exact H].
  intros e He Hm. destruct e; cbn in He, Hm; contradiction.
Qed.

Lemma body_events_off_monitor tr :
  Forall body_event tr -> Forall (fun e => ~ monitor_event e) tr.
Proof.
  intros H. eapply Forall_impl; [|exact H].
  intros e He Hm. destruct e as [f m| | | | | | | | | | |];
    cbn in He, Hm; try contradiction.
  destruct f, m; contradiction.
Qed.

Lemma access_run_off_monitor pf w l mem :
  Forall (fun e => ~ monitor_event e) (trace_of (run (access pf w l) mem)).
Proof.
  destruct (Z_lt_ge_dec (open_result w) 1) as [Hfd|Hfd].
  { rewrite access_open_failure by exact Hfd.
    unfold trace_of; cbn. repeat constructor; cbn; tauto. }
  destruct (mmap_succeeds w) eqn:Hmap.
  2:{ rewrite access_mmap_failure by (assumption || lia).
      unfold trace_of; cbn. repeat constructor; cbn; tauto. }
  rewrite access_mapped by (assumption || lia). cbv zeta.
  assert (Hhead : Forall (fun e => ~ monitor_event e)
                    [EvOpen (fpath l) (open_result w);
                     EvMmap (map_length_of l) (open_result w) true])
    by (repeat constructor; cbn; tauto).
  destruct (mode_eqb (mode l) MODE_READ).
  - destruct (read_loop_events pf (Mapping (map_length_of l)) (width l)
                (Z.to_nat (count l)) (addr l)
                (State mem [EvOpen (fpath l) (open_result w);
                            EvMmap (map_length_of l) (open_result w) true] 0))
      as (r & evs & -> & Hr & Hev).
    apply body_events_off_monitor in Hev.
    destruct Hr as [-> | ->]; unfold trace_of, after;
      cbn [snd st_trace]; rewrite ?Forall_app; repeat split;
      try assumption; repeat constructor; cbn; tauto.
  - unfold store. destruct (withinb _ _); unfold trace_of, after;
      cbn [snd st_trace app]; repeat constructor; cbn; tauto.
Qed.

(** X20. One mode per run.  No run of [main] both speaks the interrupt
    protocol on the raw descriptor and maps the device: its trace holds
    no event of the monitor, or none of the mapping. *)
Theorem main_one_mode pf w fuel opts args mem :
  let tr := trace_of (run (main pf w fuel opts args) mem) in
  Forall (fun e => ~ monitor_event e) tr
  \/ Forall (fun e => ~ mapping_event e) tr.
Proof.
  cbv zeta.
  destruct (Forall_dec passes passes_dec opts) as [Hp|Hp].
  2:{ right.
      destruct (option_loop_rejecting opts Hp init_locals (State mem [] 0))
        as (st & evs & e & E & Hm).
      rewrite (main_stops_in_options pf w fuel opts args mem _ _ E).
      unfold trace_of; cbn [snd st_trace app].
      now apply messages_off_mapping. }
  pose proof (option_loop_all_pass opts init_locals (State mem [] 0) Hp) as E.
  destruct (apply_options_fields opts Hp init_locals)
    as (_ & _ & _ & _ & _ & _ & Hm & _).
  cbn [init_locals mode] in Hm.
  set (l' := apply_options opts init_locals) in *.
  destruct Hm as [Hm | Hm].
  - (* read or write *)
    remember (run (main pf w fuel opts args) mem) as r eqn:Er.
    rewrite (main_after_options pf w fuel opts args mem l' _ E) in Er.
    unfold positional in Er. rewrite Hm in Er. cbn [mode_eqb] in Er.
    unfold bind at 1 in Er. unfold ret at 1 in Er.
    rewrite Hm in Er. cbn [mode_eqb] in Er.
    destruct args as [|a0 [|a1 [|a2 [|a3 args]]]];
      try (right; subst r; unfold trace_of; cbn;
           repeat constructor; cbn; tauto).
    + unfold check_errno, strtoul in Er. revert Er. run_prog.
      destruct (w_errno a1 =? 0) eqn:E1; cbn [st_mem st_trace st_errno];
        rewrite ?E1; cbn [negb]; intros ->.
      * left. apply (access_run_off_monitor pf w _ mem).
      * right. unfold trace_of; cbn. repeat constructor; cbn; tauto.
    + unfold check_errno, strtoul in Er. revert Er. run_prog.
      destruct (w_errno a1 =? 0) eqn:E1, (w_errno a2 =? 0) eqn:E2;
        cbn [st_mem st_trace st_errno]; rewrite ?E1, ?E2; cbn [negb];
        intros ->;
        try (right; unfold trace_of; cbn; repeat constructor; cbn; tauto).
      left. apply (access_run_off_monitor pf w _ mem).
  - (* monitor *)
    right. destruct args as [|dev [|a1 args]].
    + rewrite (main_after_options pf w fuel opts [] mem l' _ E).
      unfold positional. rewrite Hm. cbn [mode_eqb].
      unfold trace_of; cbn. repeat constructor; cbn; tauto.
    + rewrite (main_runs_monitor pf w fuel opts dev mem l' _ E Hm).
      apply monitor_run_off_mapping.
    + rewrite (main_after_options pf w fuel opts _ mem l' _ E).
      unfold positional. rewrite Hm. cbn [mode_eqb].
      unfold trace_of; cbn. repeat constructor; cbn; tauto.
Qed.

(** ** Concrete instances *)

Lemma access_release_on_success_read_witness :
  let l := Locals MODE_READ uio0 0 8 0 2 4 1 in
  exists body,
    trace_of (run (access arm (steady startval) l) zeroed) =
      [EvOpen uio0 3; EvMmap 16 3 true] ++ body ++ [EvMunmap 8; EvClose 3]
    /\ Forall body_event body.
Proof.
  intros l.
  exact (access_release_on_success arm (steady startval) l zeroed eq_refl).
Defined.

Lemma interrupt_count_small_witness :
  interrupt_count x86 (Buf4 x7f x01 x00 x7f) = le_u32 (Buf4 x7f x01 x00 x7f).
Proof. apply interrupt_count_small; cbn; lia. Defined.

Lemma interrupt_count_unsigned_char_witness :
  interrupt_count arm (Buf4 xff x80 xc8 x7f) = le_u32 (Buf4 xff x80 xc8 x7f).
Proof. apply interrupt_count_unsigned_char; [reflexivity | cbn; lia]. Defined.
